(** * dlr2d::imfreq_ops_2d — two-dimensional DLR imaginary-frequency operations

    Shallow embedding of [src/dlr2d_imfreq.hpp].

    Conventions of the embedding.
    - An nda container is its shape together with its logical contents,
      the elements listed in row-major order of the multi-index.  Strides
      and memory order are not represented; a change of memory layout is a
      copy that keeps shape and logical contents.
    - [int] members are integers in [Z]; the narrowing of a [long] extent to
      [int] is written out ([int_of_long]).  Extents are natural numbers.
    - A scalar member that a constructor leaves uninitialised holds an
      indeterminate value, written [None].
    - A call returns a value, throws, or has undefined behaviour
      ([outcome]). *)

From Stdlib Require Import ZArith List Lia QArith Qcanon Field.
From stdpp Require Import base option list strings gmap.

Local Open Scope Z_scope.

(** ** Scalars *)

(** Arithmetic of the scalar type held by the transformation matrices
    ([dcomplex] in the sources).  No law is assumed here: the operations may
    be those of a floating-point type. *)
Class Scalar (F : Type) := {
  szero : F;
  sone : F;
  sadd : F → F → F;
  smul : F → F → F;
  ssub : F → F → F;
  sopp : F → F;
  sdiv : F → F → F;
  sinv : F → F
}.

(** [make_cplx_t]: a value of the input scalar kind [S] seen as a value of
    the matrix scalar kind [F]. *)
Class Promote (S F : Type) := promote : S → F.

#[export] Instance promote_same (F : Type) : Promote F F := fun x => x.

(** ** Outcomes of a call *)

Inductive exn : Type :=
| runtime_error (what : string).

Inductive outcome (A : Type) : Type :=
| Ok (a : A)
| Throw (e : exn)
| Undef.
Arguments Ok {A} a.
Arguments Throw {A} e.
Arguments Undef {A}.

#[export] Instance outcome_ret : MRet outcome := fun A a => Ok a.
#[export] Instance outcome_bind : MBind outcome := fun A B f m =>
  match m with
  | Ok a => f a
  | Throw e => Throw e
  | Undef => Undef
  end.

(** Reading a scalar member: an indeterminate value cannot be used. *)
Definition read_member {A : Type} (c : option A) : outcome A :=
  match c with
  | Some a => Ok a
  | None => Undef
  end.

(** ** Integers *)

(** Conversion of a [long] to [int] (two's complement, 32 bits). *)
Definition int_of_long (z : Z) : Z := (z + 2 ^ 31) mod 2 ^ 32 - 2 ^ 31.

(** ** nda containers *)

Record array (A : Type) : Type := mk_array {
  a_shape : list nat;
  a_data : list A
}.
Arguments mk_array {A} a_shape a_data.
Arguments a_shape {A} a.
Arguments a_data {A} a.

Definition prod_list (l : list nat) : nat := foldr Nat.mul 1%nat l.

Section Containers.
Context {A : Type}.

(** [a.size()]: the total number of elements. *)
Definition arr_size (a : array A) : nat := prod_list (a_shape a).

(** [a.shape(i)], [a.extent(i)]. *)
Definition extent (a : array A) (i : nat) : nat := nth i (a_shape a) 0%nat.

(** [T::rank]. *)
Definition arr_rank (a : array A) : nat := length (a_shape a).

(** The contents fill the shape. *)
Definition wf_array (a : array A) : Prop :=
  length (a_data a) = arr_size a.

(** Default-constructed containers. *)
Definition empty_vector : array A := mk_array [0%nat] [].
Definition empty_matrix : array A := mk_array [0%nat; 0%nat] [].

(** Modelled from the spec: [nda::reshape] (nda library) gives the same
    elements under a new shape of the same total size; any other shape
    violates its precondition. *)
Definition reshape (a : array A) (new_shape : list nat) : outcome (array A) :=
  if decide (prod_list new_shape = arr_size a)
  then Ok (mk_array new_shape (a_data a))
  else Undef.

(** Modelled from the spec: [a(nda::range(n), nda::ellipsis())] keeps the
    first [n] entries of the leading axis and all of the other axes. *)
Definition slice_leading (n : nat) (a : array A) : array A :=
  mk_array (n :: tail (a_shape a))
           (take (n * prod_list (tail (a_shape a))) (a_data a)).

End Containers.

Definition amap {A B : Type} (f : A → B) (a : array A) : array B :=
  mk_array (a_shape a) (f <$> a_data a).

(** ** Dense linear algebra on logical contents *)

Section LinAlg.
Context {F : Type} `{Scalar F}.

Fixpoint dot (u v : list F) : F :=
  match u, v with
  | a :: u', b :: v' => sadd (smul a b) (dot u' v')
  | _, _ => szero
  end.

(** [chunks m k l]: the [m] rows of length [k] of a row-major matrix. *)
Fixpoint chunks {A : Type} (m k : nat) (l : list A) : list (list A) :=
  match m with
  | O => []
  | S m' => take k l :: chunks m' k (drop k l)
  end.

Definition col (j : nat) (rows : list (list F)) : list F :=
  (λ row, nth j row szero) <$> rows.

(** The [k] columns of a matrix given by its rows, and back. *)
Definition cols_of (k : nat) (rows : list (list F)) : list (list F) :=
  (λ j, col j rows) <$> seq 0 k.

Definition of_cols (m : nat) (cols : list (list F)) : list (list F) :=
  (λ i, (λ c, nth i c szero) <$> cols) <$> seq 0 m.

Definition matvec (rows : list (list F)) (x : list F) : list F :=
  (λ row, dot row x) <$> rows.

(** Product of two matrices given by their rows; [n] is the number of
    columns of the right factor. *)
Definition mm (n : nat) (a b : list (list F)) : list (list F) :=
  (λ row, (λ j, dot row (col j b)) <$> seq 0 n) <$> a.

(** Modelled from the spec: the matrix product [a * b] of nda (BLAS
    [gemm]); the inner extents must agree. *)
Definition matmul (a b : array F) : outcome (array F) :=
  match a_shape a, a_shape b with
  | [m; k], [k'; n] =>
      if decide (k = k')
      then Ok (mk_array [m; n]
                 (concat (mm n (chunks m k (a_data a))
                               (chunks k n (a_data b)))))
      else Undef
  | _, _ => Undef
  end.

(** *** Solving with LAPACK-format LU factors *)

Definition swap {A : Type} (i j : nat) (l : list A) : list A :=
  match l !! i, l !! j with
  | Some a, Some b => <[i := b]> (<[j := a]> l)
  | _, _ => l
  end.

(** [laswp]: row [i] is exchanged with row [ipiv(i) - 1], for [i] from
    the first row on (pivot indices count from one). *)
Fixpoint laswp_from {A : Type} (i : nat) (piv : list Z) (l : list A) : list A :=
  match piv with
  | [] => l
  | p :: piv' => laswp_from (S i) piv' (swap i (Z.to_nat (p - 1)) l)
  end.

Definition laswp {A : Type} (piv : list Z) (l : list A) : list A :=
  laswp_from 0 piv l.

(** Forward substitution with the unit lower triangle stored below the
    diagonal of [rows]; [acc] holds the entries already computed. *)
Fixpoint forward (rows : list (list F)) (c : list F) (acc : list F) : list F :=
  match rows, c with
  | row :: rows', ci :: c' =>
      forward rows' c' (acc ++ [ssub ci (dot row acc)])
  | _, _ => acc
  end.

(** Back substitution with the upper triangle stored on and above the
    diagonal of [rows]; [rows] starts at row [i]. *)
Fixpoint backward (rows : list (list F)) (y : list F) (i : nat) : list F :=
  match rows, y with
  | row :: rows', yi :: y' =>
      let xs := backward rows' y' (S i) in
      sdiv (ssub yi (dot (drop (S i) row) xs)) (nth i row szero) :: xs
  | _, _ => []
  end.

(** One right-hand side of [getrs]: exchange rows, solve with [L], solve
    with [U]. *)
Definition getrs_col (lu : list (list F)) (piv : list Z) (b : list F) : list F :=
  backward lu (forward lu (laswp piv b) []) 0.

Definition pivots_ok (n : nat) (piv : list Z) : Prop :=
  Forall (λ p, 1 <= p <= Z.of_nat n) piv.

#[export] Instance pivots_ok_dec n piv : Decision (pivots_ok n piv) :=
  Forall_dec (λ p, 1 <= p <= Z.of_nat n) piv.

(** Modelled from the spec: [nda::lapack::getrs] (LAPACK) solves, for every
    column of [b], the system whose factors and pivots are [lu] and the
    first [n] entries of [piv].  Extents that do not match, or pivots
    outside [1..n], violate its precondition. *)
Definition getrs (lu b : array F) (piv : array Z) : outcome (array F) :=
  match a_shape lu, a_shape b with
  | [n; n'], [nb; k] =>
      if decide (n = n' ∧ nb = n ∧ (n ≤ length (a_data piv))%nat
                 ∧ pivots_ok n (take n (a_data piv)))
      then
        let lu_rows := chunks n n (a_data lu) in
        let b_cols := cols_of k (chunks n k (a_data b)) in
        let x_cols := getrs_col lu_rows (take n (a_data piv)) <$> b_cols in
        Ok (mk_array [n; k] (concat (of_cols n x_cols)))
      else Undef
  | _, _ => Undef
  end.

End LinAlg.

(** ** Caller-visible memory *)

(** Arrays live in a store and are named by their position in it.  A view
    names an array of the store and gives it a shape of its own.  The
    arrays a call creates stay in the store when it returns. *)
Definition loc := nat.

Record view : Type := mk_view { v_loc : loc; v_shape : list nat }.

Definition M (St A : Type) : Type := St → outcome A * St.

Definition m_ret {St A : Type} (a : A) : M St A := λ s, (Ok a, s).

Definition m_bind {St A B : Type} (m : M St A) (f : A → M St B) : M St B :=
  λ s, match m s with
       | (Ok a, s') => f a s'
       | (Throw e, s') => (Throw e, s')
       | (Undef, s') => (Undef, s')
       end.

Definition m_lift {St A : Type} (o : outcome A) : M St A := λ s, (o, s).

Notation "'let*' x ':=' m 'in' k" := (m_bind m (λ x, k))
  (at level 10, x name, m at level 100, k at level 200).

Section Store.
Context {F : Type}.

Definition load (l : loc) : M (list (array F)) (array F) :=
  λ σ, match σ !! l with
       | Some a => (Ok a, σ)
       | None => (Undef, σ)
       end.

Definition alloc (a : array F) : M (list (array F)) loc :=
  λ σ, (Ok (length σ), σ ++ [a]).

Definition write (l : loc) (a : array F) : M (list (array F)) unit :=
  λ σ, if decide (l < length σ)%nat
       then (Ok tt, <[l := a]> σ)
       else (Undef, σ).

(** [nda::reshape] of an lvalue: a view of the same array. *)
Definition reshape_view (l : loc) (new_shape : list nat)
    : M (list (array F)) view :=
  let* a := load l in
  if decide (prod_list new_shape = arr_size a)
  then m_ret (mk_view l new_shape)
  else m_lift Undef.

(** [getrs] overwrites its right-hand side, here given as a view. *)
Definition getrs_inplace `{Scalar F} (lu : array F) (b : view) (piv : array Z)
    : M (list (array F)) unit :=
  let* a := load (v_loc b) in
  let* x := m_lift (getrs lu (mk_array (v_shape b) (a_data a)) piv) in
  write (v_loc b) (mk_array (a_shape a) (a_data x)).

End Store.

(** ** The operator class *)

Section Operator.
Context {D F : Type} `{Scalar F}.

(** Private members of [imfreq_ops_2d], in declaration order. *)
Record imfreq_ops_2d : Type := mk_ops {
  lambda_ : option D;       (* energy cutoff divided by temperature *)
  eps_ : option D;          (* error tolerance *)
  r : option Z;             (* DLR rank *)
  dlr_rf : array D;         (* 1D DLR frequencies *)
  dlr2d_if : array Z;       (* 2D DLR imaginary frequency nodes *)
  cf2if : array F;          (* coefficients -> values matrix *)
  if2cf_lu : array F;       (* LU factors, LAPACK format *)
  if2cf_piv : array Z       (* LU pivots, LAPACK format *)
}.

(** Accessors. *)
Definition rank (m : imfreq_ops_2d) : option Z := r m.
Definition lambda (m : imfreq_ops_2d) : option D := lambda_ m.
Definition eps (m : imfreq_ops_2d) : option D := eps_ m.
Definition get_rfnodes (m : imfreq_ops_2d) : array D := dlr_rf m.
Definition get_ifnodes (m : imfreq_ops_2d) : array Z := dlr2d_if m.
Definition get_cf2if (m : imfreq_ops_2d) : array F := cf2if m.
Definition get_if2cf_lu (m : imfreq_ops_2d) : array F := if2cf_lu m.
Definition get_if2cf_piv (m : imfreq_ops_2d) : array Z := if2cf_piv m.

(** [imfreq_ops_2d() = default]: scalar members are left uninitialised,
    containers are empty. *)
Definition imfreq_ops_2d_default : imfreq_ops_2d :=
  {| lambda_ := None; eps_ := None; r := None;
     dlr_rf := empty_vector; dlr2d_if := empty_matrix;
     cf2if := empty_matrix;
     if2cf_lu := empty_matrix; if2cf_piv := empty_vector |}.

(** The field-wise constructor.  Its member initialiser list is
    [lambda_(lambda), r(cf2if.extent(1)), dlr_rf(dlr_rf),
     dlr2d_if(dlr2d_if), cf2if(cf2if), if2cf{if2cf_lu, if2cf_piv}];
    [eps_] has no initialiser. *)
Definition imfreq_ops_2d_from_fields
    (lambda eps : D) (dlr_rf : array D) (dlr2d_if : array Z)
    (cf2if if2cf_lu : array F) (if2cf_piv : array Z) : imfreq_ops_2d :=
  {| lambda_ := Some lambda;
     eps_ := None;
     r := Some (int_of_long (Z.of_nat (extent cf2if 1)));
     dlr_rf := dlr_rf;
     dlr2d_if := dlr2d_if;
     cf2if := cf2if;
     if2cf_lu := if2cf_lu;
     if2cf_piv := if2cf_piv |}.

Section Build.
(** Collaborators of the computing constructor that live outside the
    header: the node selector, the 1D basis provider, the transform
    builder and LAPACK's factorisation (which overwrites both of its
    arguments; its status code is discarded by the caller). *)
Variable build_dlr2d_if : D → D → array Z.
Variable build_dlr_rf : D → D → bool → array D.
Variable build_cf2if : D → array D → array Z → array F.
Variable getrf : array F → array Z → array F * array Z.

(** [nda::vector<int>(n)]. *)
Definition vector_int (n : Z) : array Z :=
  mk_array [Z.to_nat n] (replicate (Z.to_nat n) 0).

(** [imfreq_ops_2d(double lambda, double eps)]. *)
Definition imfreq_ops_2d_build (lambda eps : D) : imfreq_ops_2d :=
  let dlr2d_if := build_dlr2d_if lambda eps in
  let r := int_of_long (Z.of_nat (arr_size dlr2d_if)) in
  let dlr_rf := build_dlr_rf lambda eps false in
  let cf2if := build_cf2if lambda dlr_rf dlr2d_if in
  let '(lu, piv) := getrf cf2if (vector_int r) in
  {| lambda_ := Some lambda;
     eps_ := Some eps;
     r := Some r;
     dlr_rf := dlr_rf;
     dlr2d_if := dlr2d_if;
     cf2if := cf2if;
     if2cf_lu := lu;
     if2cf_piv := piv |}.
End Build.

(** *** Transforms *)

(** [vals2coefs(T const &g)] for an array [g] of the store.  The
    right-hand side of [getrs] has the scalar kind of the factors, so [g]
    holds scalars of the kind of the matrix. *)
Definition vals2coefs_st (op : imfreq_ops_2d) (g : loc)
    : M (list (array F)) (array F) :=
  let* gv := load g in
  let* rk := m_lift (read_member (r op)) in
  if decide (rk ≠ Z.of_nat (extent gv 0))
  then m_lift (Throw (runtime_error
                 "First dim of g != # DLR imaginary frequency nodes."))
  else
    (* Make a copy of the data in Fortran Layout as required by getrs *)
    let* gf := alloc gv in
    (* Reshape as matrix_view with r rows *)
    if decide (rk = 0) then m_lift Undef else
    let* gfv := reshape_view gf
                  [Z.to_nat rk; Z.to_nat (Z.of_nat (arr_size gv) ÷ rk)] in
    (* Solve linear system (multiple right hand sides) *)
    let* _ := getrs_inplace (if2cf_lu op) gfv (if2cf_piv op) in
    let* res := load gf in
    m_ret (slice_leading (Z.to_nat rk) res).

(** The same call with [g] alone in the store: the returned array. *)
Definition vals2coefs (op : imfreq_ops_2d) (g : array F) : outcome (array F) :=
  (vals2coefs_st op 0%nat [g]).1.

(** [coefs2vals(T const &gc)]; nothing is written. *)
Definition coefs2vals {S : Type} `{Promote S F}
    (op : imfreq_ops_2d) (gc : array S) : outcome (array F) :=
  rk ← read_member (r op);
  if decide (rk ≠ Z.of_nat (extent gc 0))
  then Throw (runtime_error "First dim of gc != DLR rank r.")
  else
    if decide (rk = 0) then Undef else
    (* Reshape gc to a matrix w/ first dimension r *)
    gc_rs ← reshape gc [Z.to_nat rk; Z.to_nat (Z.of_nat (arr_size gc) ÷ rk)];
    (* Apply coeffs -> vals matrix *)
    g ← matmul (cf2if op) (amap promote gc_rs);
    (* Get output shape *)
    let shape_out := Z.to_nat rk :: tail (a_shape gc) in
    (* Reshape to original dimensions and return *)
    reshape g shape_out.

(** *** Point evaluation *)

(** The two return types of [coefs2eval]: a [dcomplex] for rank-1 input,
    an array with the leading axis removed otherwise. *)
Inductive eval_result (S : Type) : Type :=
| EvalScalar (c : F)
| EvalArray (a : array S).
Arguments EvalScalar {S} c.
Arguments EvalArray {S} a.

Definition coefs2eval {S : Type} (op : imfreq_ops_2d) (gc : array S)
    (n m : Z) : outcome (eval_result S) :=
  rk ← read_member (r op);
  if decide (rk ≠ Z.of_nat (extent gc 0))
  then Throw (runtime_error "First dim of g != DLR rank r.")
  else if decide (arr_rank gc = 1%nat)
  then
    (* Evaluate DLR expansion FIXME *)
    let g := szero in
    Ok (EvalScalar g)
  else
    if decide (rk = 0) then Undef else
    gc_rs ← reshape gc [Z.to_nat rk; Z.to_nat (Z.of_nat (arr_size gc) ÷ rk)];
    let shape_out := tail (a_shape gc) in
    (* Get vector of evaluation of DLR expansion at a point FIXME *)
    let g := @empty_matrix S in
    a ← reshape g shape_out;
    Ok (EvalArray a).

(** *** Serialization *)

(** What an archive holds, one item per member written with [operator&]. *)
Inductive ar_item : Type :=
| ar_double (d : D)
| ar_int (z : Z)
| ar_doubles (a : array D)
| ar_ints (a : array Z)
| ar_matrix (a : array F).

(** [ar & lambda_ & r & dlr_rf & dlr2d_if & cf2if & if2cf.lu & if2cf.piv] *)
Definition serialize (m : imfreq_ops_2d) (ar : list ar_item)
    : outcome (list ar_item) :=
  lam ← read_member (lambda_ m);
  rk ← read_member (r m);
  Ok (ar ++ [ar_double lam; ar_int rk; ar_doubles (dlr_rf m);
             ar_ints (dlr2d_if m); ar_matrix (cf2if m);
             ar_matrix (if2cf_lu m); ar_ints (if2cf_piv m)]).

(** The same members are read back in the same order into [m]; a member
    that is not named keeps what it held. *)
Definition deserialize (m : imfreq_ops_2d) (ar : list ar_item)
    : outcome (imfreq_ops_2d * list ar_item) :=
  match ar with
  | ar_double lam :: ar_int rk :: ar_doubles rf :: ar_ints nodes
      :: ar_matrix cf :: ar_matrix lu :: ar_ints piv :: rest =>
      Ok ({| lambda_ := Some lam; eps_ := eps_ m; r := Some rk;
             dlr_rf := rf; dlr2d_if := nodes; cf2if := cf;
             if2cf_lu := lu; if2cf_piv := piv |}, rest)
  | _ => Undef
  end.

(** *** HDF5 *)

Inductive h5_value : Type :=
| h5_double (d : D)
| h5_doubles (a : array D)
| h5_ints (a : array Z)
| h5_matrix (a : array F).

(** A group: its format attribute, its datasets, by name. *)
Record h5_group : Type := mk_group {
  h5_attr_format : option string;
  h5_datasets : gmap string h5_value
}.

Definition hdf5_format : string := "cppdlr::imfreq_ops".

(** Modelled from the spec: [write_hdf5_format_as_string] (h5 library)
    stores the format tag of a group. *)
Definition write_hdf5_format_as_string (gr : h5_group) (tag : string) : h5_group :=
  mk_group (Some tag) (h5_datasets gr).

(** Modelled from the spec: [h5::write] (h5 library) stores a named field. *)
Definition h5_put (gr : h5_group) (name : string) (v : h5_value) : h5_group :=
  mk_group (h5_attr_format gr) (<[name := v]> (h5_datasets gr)).

(** [h5_write(fg, subgroup_name, m)]: the file contents afterwards, for an
    operator whose cutoff and tolerance are initialised.  For any other
    operator the call returns and stores whatever the uninitialised member
    holds; the model has no value to put in the file, and its [Undef] there
    means only that the stored number is not determined, not that the call
    fails: nothing is stated about [h5_write] on such an operator. *)
Definition h5_write (fg : gmap string h5_group) (subgroup_name : string)
    (m : imfreq_ops_2d) : outcome (gmap string h5_group) :=
  let gr := mk_group None ∅ in
  let gr := write_hdf5_format_as_string gr "cppdlr::imfreq_ops" in
  lam ← read_member (lambda m);
  let gr := h5_put gr "lambda" (h5_double lam) in
  e ← read_member (eps m);
  let gr := h5_put gr "eps" (h5_double e) in
  let gr := h5_put gr "rf" (h5_doubles (get_rfnodes m)) in
  let gr := h5_put gr "if" (h5_ints (get_ifnodes m)) in
  let gr := h5_put gr "cf2if" (h5_matrix (get_cf2if m)) in
  let gr := h5_put gr "if2cf_lu" (h5_matrix (get_if2cf_lu m)) in
  let gr := h5_put gr "if2cf_piv" (h5_ints (get_if2cf_piv m)) in
  Ok (<[subgroup_name := gr]> fg).

(** Reading is a computation over the list of the fields read so far. *)
Definition open_group (fg : gmap string h5_group) (name : string)
    : M (list string) h5_group :=
  match fg !! name with
  | Some gr => m_ret gr
  | None => m_lift (Throw (runtime_error "h5 : no such group"))
  end.

(** Modelled from the spec: [assert_hdf5_format_as_string] (h5 library)
    compares the stored format tag with the expected one and throws when
    they differ; its last argument says whether a group without a tag is
    accepted.  It reads no field. *)
Definition assert_hdf5_format_as_string (gr : h5_group) (tag_expected : string)
    (ignore_if_absent : bool) : M (list string) unit :=
  match h5_attr_format gr with
  | None =>
      if ignore_if_absent then m_ret tt
      else m_lift (Throw (runtime_error "h5_read : mismatch of the Format tag"))
  | Some tag_file =>
      if decide (tag_file = tag_expected) then m_ret tt
      else m_lift (Throw (runtime_error "h5_read : mismatch of the Format tag"))
  end.

(** Modelled from the spec: [h5::read] (h5 library) fetches a named field
    of the expected kind, and throws when there is none. *)
Definition h5_get {A : Type} (gr : h5_group) (name : string)
    (as_kind : h5_value → option A) : M (list string) A :=
  λ log, match h5_datasets gr !! name ≫= as_kind with
         | Some a => (Ok a, log ++ [name])
         | None => (Throw (runtime_error "h5 : cannot read dataset"), log ++ [name])
         end.

Definition as_double (v : h5_value) : option D :=
  match v with h5_double d => Some d | _ => None end.
Definition as_doubles (v : h5_value) : option (array D) :=
  match v with h5_doubles a => Some a | _ => None end.
Definition as_ints (v : h5_value) : option (array Z) :=
  match v with h5_ints a => Some a | _ => None end.
Definition as_matrix (v : h5_value) : option (array F) :=
  match v with h5_matrix a => Some a | _ => None end.

(** [h5_read(fg, subgroup_name, m)]: the new value of [m]. *)
Definition h5_read (fg : gmap string h5_group) (subgroup_name : string)
    (m : imfreq_ops_2d) : M (list string) imfreq_ops_2d :=
  let* gr := open_group fg subgroup_name in
  let* _ := assert_hdf5_format_as_string gr "cppdlr::imfreq_ops" true in
  let* lambda := h5_get gr "lambda" as_double in
  let* eps := h5_get gr "eps" as_double in
  let* rf_ := h5_get gr "rf" as_doubles in
  let* if_ := h5_get gr "if" as_ints in
  let* cf2if_ := h5_get gr "cf2if" as_matrix in
  let* if2cf_lu := h5_get gr "if2cf_lu" as_matrix in
  let* if2cf_piv := h5_get gr "if2cf_piv" as_ints in
  m_ret (imfreq_ops_2d_from_fields lambda eps rf_ if_ cf2if_ if2cf_lu if2cf_piv).

End Operator.

Arguments imfreq_ops_2d D F : clear implicits.
Arguments eval_result F S : clear implicits.
Arguments EvalScalar {F S} c.
Arguments EvalArray {F S} a.
Arguments ar_item D F : clear implicits.
Arguments h5_value D F : clear implicits.
Arguments h5_group D F : clear implicits.

(** ** Indexed accessors and the driver *)

Section Indexed.
Context {D F : Type}.

(** Modelled from the spec: element access [a(i)] and [a(i, j)] of nda
    (nda library); an index outside the extents violates its
    precondition. *)
Definition at1 {A : Type} (a : array A) (i : Z) : outcome A :=
  if decide (0 <= i < Z.of_nat (extent a 0))
  then match a_data a !! Z.to_nat i with
       | Some x => Ok x
       | None => Undef
       end
  else Undef.

Definition at2 {A : Type} (a : array A) (i j : Z) : outcome A :=
  if decide (0 <= i < Z.of_nat (extent a 0) ∧ 0 <= j < Z.of_nat (extent a 1))
  then match a_data a !! (Z.to_nat i * extent a 1 + Z.to_nat j)%nat with
       | Some x => Ok x
       | None => Undef
       end
  else Undef.

(** [get_ifnodes(int i)]: [{dlr2d_if(i, 0), dlr2d_if(i, 1)}]. *)
Definition get_ifnodes_at (m : imfreq_ops_2d D F) (i : Z) : outcome (Z * Z) :=
  n ← at2 (dlr2d_if m) i 0;
  k ← at2 (dlr2d_if m) i 1;
  Ok (n, k).

(** [get_rfnodes(int i)]: [dlr_rf(i)]. *)
Definition get_rfnodes_at (m : imfreq_ops_2d D F) (i : Z) : outcome D :=
  at1 (dlr_rf m) i.

End Indexed.

Section Driver.
Context {D F : Type} `{Scalar F}.

(** The collaborators of the computing constructor, and the doubles that
    the literals [10] and [1e-5] of the driver denote. *)
Variable build_dlr2d_if : D → D → array Z.
Variable build_dlr_rf : D → D → bool → array D.
Variable build_cf2if : D → array D → array Z → array F.
Variable getrf : array F → array Z → array F * array Z.
Variable lit_10 lit_1e_5 : D.

(** [main] of [programs/imfreq_ops_2d.cpp]: what it prints, the operator it
    computes and the operator it reads back.  The file is created empty
    for writing and opened again for reading. *)
Definition main : outcome (Z * imfreq_ops_2d D F * imfreq_ops_2d D F) :=
  let lambda := lit_10 in
  let eps := lit_1e_5 in
  (* Get DLR imaginary frequency object *)
  let ifops :=
    imfreq_ops_2d_build build_dlr2d_if build_dlr_rf build_cf2if getrf
                        lambda eps in
  let name := "ifops" in
  printed ← read_member (rank ifops);
  file ← h5_write ∅ name ifops;
  let ifops_ref := imfreq_ops_2d_default in
  ifops_ref ← (h5_read file name ifops_ref []).1;
  Ok (printed, ifops, ifops_ref).

End Driver.

(** ** Notions used in the statements *)

Section Notions.
Context {D F : Type} `{Scalar F}.

(** The invariant of the data model: one number [n] is the rank, the
    length of the real-frequency basis, the number of node pairs, and
    the number of rows and of columns of [cf2if] and of the LU factors. *)
Definition shape_invariant (op : imfreq_ops_2d D F) : Prop :=
  ∃ n : nat,
    rank op = Some (Z.of_nat n)
    ∧ a_shape (get_rfnodes op) = [n]
    ∧ extent (get_ifnodes op) 0 = n
    ∧ a_shape (get_cf2if op) = [n; n]
    ∧ a_shape (get_if2cf_lu op) = [n; n].

(** The ready state, as far as the transforms depend on it: a positive
    rank [n], an [n] x [n] matrix, [n] x [n] factors and [n] pivots that
    name rows of the matrix. *)
Definition populated (op : imfreq_ops_2d D F) (n : nat) : Prop :=
  rank op = Some (Z.of_nat n) ∧ (0 < n)%nat
  ∧ a_shape (get_cf2if op) = [n; n] ∧ wf_array (get_cf2if op)
  ∧ a_shape (get_if2cf_lu op) = [n; n] ∧ wf_array (get_if2cf_lu op)
  ∧ a_shape (get_if2cf_piv op) = [n] ∧ wf_array (get_if2cf_piv op)
  ∧ pivots_ok n (a_data (get_if2cf_piv op)).

(** A batched array for rank [n]: at least one axis, the leading one of
    length [n]. *)
Definition batched {A : Type} (n : nat) (g : array A) : Prop :=
  hd_error (a_shape g) = Some n ∧ wf_array g.

(** The number of columns of the reshaped array. *)
Definition batch_size {A : Type} (g : array A) : nat :=
  prod_list (tail (a_shape g)).

(** Column [j] of the reshaped array, as a rank-1 array. *)
Definition column {A : Type} (j : nat) (a : array A) : array A :=
  mk_array [extent a 0]
           (omap (λ row, row !! j)
                 (chunks (extent a 0) (batch_size a) (a_data a))).

(** The entries [getrs] leaves in an [n] x [k] right-hand side [b], and
    the entries of the product of [cf2if] with an [n] x [k] matrix [x]. *)
Definition solved (op : imfreq_ops_2d D F) (n k : nat) (b : list F) : list F :=
  concat (of_cols n
            (getrs_col (chunks n n (a_data (if2cf_lu op)))
                       (a_data (if2cf_piv op))
               <$> cols_of k (chunks n k b))).

Definition applied (op : imfreq_ops_2d D F) (n k : nat) (x : list F) : list F :=
  concat (mm k (chunks n n (a_data (cf2if op))) (chunks n k x)).

(** The two triangular factors held in one LAPACK-format matrix. *)
Definition unit_lower_row (n i : nat) (row : list F) : list F :=
  take i row ++ sone :: replicate (n - S i) szero.
Definition upper_row (i : nat) (row : list F) : list F :=
  replicate i szero ++ drop i row.

Fixpoint unit_lower_from (n i : nat) (rows : list (list F)) : list (list F) :=
  match rows with
  | [] => []
  | row :: rows' => unit_lower_row n i row :: unit_lower_from n (S i) rows'
  end.
Fixpoint upper_from (i : nat) (rows : list (list F)) : list (list F) :=
  match rows with
  | [] => []
  | row :: rows' => upper_row i row :: upper_from (S i) rows'
  end.
Fixpoint diag_from (i : nat) (rows : list (list F)) : list F :=
  match rows with
  | [] => []
  | row :: rows' => nth i row szero :: diag_from (S i) rows'
  end.

(** The stored factors and pivots are an LU factorisation of [cf2if], as
    [getrf] leaves it: the matrix with its rows exchanged is [L * U], and
    no diagonal entry of [U] is zero. *)
Definition factorised (op : imfreq_ops_2d D F) (n : nat) : Prop :=
  let lu := chunks n n (a_data (get_if2cf_lu op)) in
  laswp (a_data (get_if2cf_piv op)) (chunks n n (a_data (get_cf2if op)))
  = mm n (unit_lower_from n 0 lu) (upper_from 0 lu)
  ∧ Forall (λ d, d ≠ szero) (diag_from 0 lu).

End Notions.

(** ** Concrete scalars and a small operator *)

(** Exact rational arithmetic. *)
#[export] Instance Qc_scalar : Scalar Qc :=
  {| szero := 0%Qc; sone := 1%Qc; sadd := Qcplus; smul := Qcmult;
     ssub := Qcminus; sopp := Qcopp; sdiv := Qcdiv; sinv := Qcinv |}.

(** [std::complex] over a real scalar kind. *)
Record complex (R : Type) : Type := mk_complex { re : R; im : R }.
Arguments mk_complex {R} re im.
Arguments re {R} c.
Arguments im {R} c.

Section Complex.
Context {R : Type} `{Scalar R}.

Definition c_add (x y : complex R) : complex R :=
  mk_complex (sadd (re x) (re y)) (sadd (im x) (im y)).
Definition c_sub (x y : complex R) : complex R :=
  mk_complex (ssub (re x) (re y)) (ssub (im x) (im y)).
Definition c_opp (x : complex R) : complex R :=
  mk_complex (sopp (re x)) (sopp (im x)).
Definition c_mul (x y : complex R) : complex R :=
  mk_complex (ssub (smul (re x) (re y)) (smul (im x) (im y)))
             (sadd (smul (re x) (im y)) (smul (im x) (re y))).
Definition c_inv (x : complex R) : complex R :=
  let d := sadd (smul (re x) (re x)) (smul (im x) (im x)) in
  mk_complex (sdiv (re x) d) (sdiv (sopp (im x)) d).
Definition c_div (x y : complex R) : complex R := c_mul x (c_inv y).

#[export] Instance complex_scalar : Scalar (complex R) :=
  {| szero := mk_complex szero szero; sone := mk_complex sone szero;
     sadd := c_add; smul := c_mul; ssub := c_sub; sopp := c_opp;
     sdiv := c_div; sinv := c_inv |}.

(** A real number promoted to a complex one. *)
#[export] Instance promote_real : Promote R (complex R) :=
  λ x, mk_complex x szero.
End Complex.

Module Example.

Definition q (z : Z) : Qc := Q2Qc (inject_Z z).

(** A 2 x 2 system with one row exchange:
    [cf2if = [[0, 2], [1, 1]]], pivots [2, 2], [L = 1], [U = [[1, 1], [0, 2]]]. *)
Definition ex_cf2if : array Qc := mk_array [2; 2]%nat [q 0; q 2; q 1; q 1].
Definition ex_lu : array Qc := mk_array [2; 2]%nat [q 1; q 1; q 0; q 2].
Definition ex_piv : array Z := mk_array [2%nat] [2; 2].
Definition ex_rf : array Qc := mk_array [2%nat] [q (-1); q 1].
Definition ex_if : array Z := mk_array [2; 2]%nat [0; 0; 0; 1].
Definition ex_lambda : Qc := q 10.
Definition ex_eps : Qc := Q2Qc (1 # 100000).

(** The operator rebuilt from these fields. *)
Definition ex_op : imfreq_ops_2d Qc Qc :=
  imfreq_ops_2d_from_fields ex_lambda ex_eps ex_rf ex_if ex_cf2if ex_lu ex_piv.

(** Values on the two nodes, three batch columns. *)
Definition ex_g : array Qc :=
  mk_array [2; 3]%nat [q 1; q 2; q 3; q 4; q 5; q 6].

(** Fields that do not fit together: three real frequencies, one node,
    a 2 x 2 matrix. *)
Definition bad_rf : array Qc := mk_array [3%nat] [q (-1); q 0; q 1].
Definition bad_if : array Z := mk_array [1; 2]%nat [0; 1].
Definition bad_op : imfreq_ops_2d Qc Qc :=
  imfreq_ops_2d_from_fields ex_lambda ex_eps bad_rf bad_if ex_cf2if ex_lu ex_piv.

(** An operator with complex-valued matrix members:
    [cf2if = [[0, 2i], [1, 1 + i]]]. *)
Definition cq (a b : Z) : complex Qc := mk_complex (q a) (q b).
Definition ex_cf2if_c : array (complex Qc) :=
  mk_array [2; 2]%nat [cq 0 0; cq 0 2; cq 1 0; cq 1 1].
Definition ex_lu_c : array (complex Qc) :=
  mk_array [2; 2]%nat [cq 1 0; cq 1 1; cq 0 0; cq 0 2].
Definition ex_op_c : imfreq_ops_2d Qc (complex Qc) :=
  imfreq_ops_2d_from_fields ex_lambda ex_eps ex_rf ex_if ex_cf2if_c ex_lu_c ex_piv.

(** Collaborators of the computing constructor that return the fields
    above; the single node [(0, 1)] is stored as a 1 x 2 array. *)
Definition ex_build_dlr2d_if (lambda eps : Qc) : array Z := bad_if.
Definition ex_build_dlr_rf (lambda eps : Qc) (b : bool) : array Qc := ex_rf.
Definition ex_build_cf2if (lambda : Qc) (rf : array Qc) (nodes : array Z)
  : array Qc := ex_cf2if.

(** LU factorisation with partial pivoting in exact rational arithmetic,
    in place and column by column as LAPACK's [getrf] does it: the pivot
    of column [k] is the entry of largest magnitude on or below the
    diagonal, its row is exchanged with row [k], the multipliers replace
    the entries below the diagonal and the rows below are updated. *)
Definition entry (rows : list (list Qc)) (i j : nat) : Qc :=
  nth j (nth i rows []) 0%Qc.

Definition pivot_row (k : nat) (rows : list (list Qc)) : nat :=
  foldl (λ best i,
           if decide (entry rows best k * entry rows best k
                      < entry rows i k * entry rows i k)%Qc
           then i else best)
        k (seq (S k) (length rows - S k)).

Definition eliminate (k : nat) (prow row : list Qc) : list Qc :=
  let m := (nth k row 0 / nth k prow 0)%Qc in
  imap (λ j x, if decide (j < k)%nat then x
               else if decide (j = k) then m
               else (x - m * nth j prow 0)%Qc) row.

Fixpoint getrf_steps (steps k : nat) (rows : list (list Qc)) (piv : list Z)
  : list (list Qc) * list Z :=
  match steps with
  | O => (rows, piv)
  | S steps' =>
      let p := pivot_row k rows in
      let rows1 := swap k p rows in
      let prow := nth k rows1 [] in
      let rows2 :=
        if decide (nth k prow 0%Qc = 0%Qc) then rows1
        else imap (λ i row, if decide (i ≤ k)%nat then row
                            else eliminate k prow row) rows1 in
      getrf_steps steps' (S k) rows2 (piv ++ [Z.of_nat p + 1])
  end.

Definition ex_getrf (a : array Qc) (piv : array Z) : array Qc * array Z :=
  let m := extent a 0 in
  let n := extent a 1 in
  let '(rows, p) :=
    getrf_steps (min m n) 0%nat (chunks m n (a_data a)) [] in
  (mk_array (a_shape a) (concat rows),
   mk_array (a_shape piv) (p ++ drop (length p) (a_data piv))).
Definition ex_built : imfreq_ops_2d Qc Qc :=
  imfreq_ops_2d_build ex_build_dlr2d_if ex_build_dlr_rf ex_build_cf2if ex_getrf
                      ex_lambda ex_eps.

(** A stored record carrying the tag of another class. *)
Definition foreign_group : h5_group Qc Qc :=
  mk_group (Some "cppdlr::imtime_ops")
           (<["lambda" := h5_double ex_lambda]>
              (<["eps" := h5_double ex_eps]> ∅)).

End Example.


Module ExampleFile.
Import Example.

(** The record that [h5_write] stores for the example fields. *)
Definition ex_group : h5_group Qc Qc :=
  mk_group (Some "cppdlr::imfreq_ops")
    (<["if2cf_piv" := h5_ints ex_piv]>
       (<["if2cf_lu" := h5_matrix ex_lu]>
          (<["cf2if" := h5_matrix ex_cf2if]>
             (<["if" := h5_ints ex_if]>
                (<["rf" := h5_doubles ex_rf]>
                   (<["eps" := h5_double ex_eps]>
                      (<["lambda" := h5_double ex_lambda]> ∅))))))).

Definition ex_file : gmap string (h5_group Qc Qc) := <["ifops" := ex_group]> ∅.

(** An operator rebuilt from empty fields: its rank is zero. *)
Definition ex_empty_op : imfreq_ops_2d Qc Qc :=
  imfreq_ops_2d_from_fields ex_lambda ex_eps empty_vector empty_matrix
                            empty_matrix empty_matrix empty_vector.

End ExampleFile.

(** * Properties *)

Lemma int_of_long_small (z : Z) : - 2 ^ 31 <= z < 2 ^ 31 → int_of_long z = z.
Proof.
  intros Hz. unfold int_of_long.
  rewrite Z.mod_small by lia. lia.
Qed.

(** ** Construction *)

Section Construction.
Context {D F : Type}.

(** The field-wise constructor computes nothing: it keeps what it is
    given, whatever the tolerance passed to it. *)
Lemma from_fields_eps_unused (lambda eps eps' : D) rf nodes
    (cf lu : array F) piv :
  imfreq_ops_2d_from_fields lambda eps rf nodes cf lu piv
  = imfreq_ops_2d_from_fields lambda eps' rf nodes cf lu piv.
Proof. reflexivity. Qed.

Lemma from_fields_rank (lambda eps : D) rf nodes (cf lu : array F) piv :
  rank (imfreq_ops_2d_from_fields lambda eps rf nodes cf lu piv)
  = Some (int_of_long (Z.of_nat (extent cf 1))).
Proof. reflexivity. Qed.

(** C9: the field-wise constructor sets the rank to the number of columns
    of the matrix it is given, whatever the node and real-frequency arrays
    are; it stores the other fields as supplied, with no node selection
    and no factorisation; and the tolerance member is left uninitialised,
    the [eps] argument having no influence on the result. *)
Theorem from_fields_rank_from_cf2if_columns
    (lambda eps : D) (rf : array D) (nodes : array Z)
    (cf lu : array F) (piv : array Z) :
  Z.of_nat (extent cf 1) < 2 ^ 31 →
  let op := imfreq_ops_2d_from_fields lambda eps rf nodes cf lu piv in
  rank op = Some (Z.of_nat (extent cf 1))
  ∧ (∀ rf' nodes',
       rank (imfreq_ops_2d_from_fields lambda eps rf' nodes' cf lu piv)
       = rank op)
  ∧ get_rfnodes op = rf ∧ get_ifnodes op = nodes ∧ get_cf2if op = cf
  ∧ get_if2cf_lu op = lu ∧ get_if2cf_piv op = piv
  ∧ lambda_ op = Some lambda
  ∧ eps_ op = None
  ∧ (∀ eps', imfreq_ops_2d_from_fields lambda eps' rf nodes cf lu piv = op).
Proof.
  intros Hcols op. subst op. cbn.
  rewrite int_of_long_small by lia.
  repeat split; reflexivity.
Qed.

(** The field-wise constructor keeps the invariant of fields that have it:
    when the supplied fields have matching extents, the rank is the number
    of columns of the supplied [cf2if] and also the length of the
    real-frequency basis, the number of node pairs, and the number of rows
    and columns of [cf2if] and of the LU factors. *)
Theorem from_fields_keeps_shape_invariant
    (lambda eps : D) (rf : array D) (nodes : array Z)
    (cf lu : array F) (piv : array Z) (n : nat) :
  a_shape rf = [n] →
  extent nodes 0 = n →
  a_shape cf = [n; n] →
  a_shape lu = [n; n] →
  Z.of_nat n < 2 ^ 31 →
  rank (imfreq_ops_2d_from_fields lambda eps rf nodes cf lu piv)
    = Some (Z.of_nat (extent cf 1))
  ∧ shape_invariant (imfreq_ops_2d_from_fields lambda eps rf nodes cf lu piv).
Proof.
  intros Hrf Hnodes Hcf Hlu Hn.
  assert (Hext : extent cf 1 = n) by (unfold extent; rewrite Hcf; reflexivity).
  rewrite from_fields_rank, Hext, int_of_long_small by lia.
  split; [reflexivity|].
  exists n. cbn. rewrite Hext, int_of_long_small by lia. done.
Qed.

Section Build.
Variable build_dlr2d_if : D → D → array Z.
Variable build_dlr_rf : D → D → bool → array D.
Variable build_cf2if : D → array D → array Z → array F.
Variable getrf : array F → array Z → array F * array Z.

(** The computing constructor takes the rank from the total number of
    entries of the node array. *)
Lemma build_rank (lambda eps : D) :
  rank (imfreq_ops_2d_build build_dlr2d_if build_dlr_rf build_cf2if getrf
                            lambda eps)
  = Some (int_of_long (Z.of_nat (arr_size (build_dlr2d_if lambda eps)))).
Proof.
  unfold imfreq_ops_2d_build. destruct (getrf _ _). reflexivity.
Qed.

(** X15: the computing constructor takes the rank from [dlr2d_if.size()];
    with one node pair per row of the node array, that is twice the number
    of nodes. *)
Lemma build_rank_counts_both_indices (lambda eps : D) (n : nat) :
  a_shape (build_dlr2d_if lambda eps) = [n; 2%nat] →
  2 * Z.of_nat n < 2 ^ 31 →
  rank (imfreq_ops_2d_build build_dlr2d_if build_dlr_rf build_cf2if getrf
                            lambda eps)
  = Some (2 * Z.of_nat n).
Proof.
  intros Hshape Hn. rewrite build_rank. unfold arr_size. rewrite Hshape.
  cbn [prod_list foldr]. rewrite int_of_long_small by lia. f_equal. lia.
Qed.

Lemma build_eps (lambda eps : D) :
  eps_ (imfreq_ops_2d_build build_dlr2d_if build_dlr_rf build_cf2if getrf
                            lambda eps)
  = Some eps.
Proof.
  unfold imfreq_ops_2d_build. destruct (getrf _ _). reflexivity.
Qed.

Lemma build_ifnodes (lambda eps : D) :
  get_ifnodes (imfreq_ops_2d_build build_dlr2d_if build_dlr_rf build_cf2if
                                   getrf lambda eps)
  = build_dlr2d_if lambda eps.
Proof.
  unfold imfreq_ops_2d_build. destruct (getrf _ _). reflexivity.
Qed.

(** C4 fails on the computing constructor: whatever the collaborators, when
    the node selector returns at least one node, stored one node per row
    with the two or more indices that [get_ifnodes(i)] reads in the columns,
    the rank is the total number of entries of the node array and not the
    number of its rows: the rank differs from the number of node pairs, and
    the invariant of the data model does not hold. *)
Theorem build_breaks_shape_invariant (lambda eps : D) (n c : nat) :
  a_shape (build_dlr2d_if lambda eps) = [n; c] →
  (1 ≤ n)%nat →
  (2 ≤ c)%nat →
  Z.of_nat (n * c) < 2 ^ 31 →
  let op := imfreq_ops_2d_build build_dlr2d_if build_dlr_rf build_cf2if getrf
                                lambda eps in
  rank op = Some (Z.of_nat (n * c))
  ∧ extent (get_ifnodes op) 0 = n
  ∧ rank op ≠ Some (Z.of_nat (extent (get_ifnodes op) 0))
  ∧ ¬ shape_invariant op.
Proof.
  intros Hshape Hn Hc Hfit op.
  assert (Hrank : rank op = Some (Z.of_nat (n * c))).
  { unfold op. rewrite build_rank. unfold arr_size. rewrite Hshape.
    cbn [prod_list foldr]. rewrite Nat.mul_1_r.
    rewrite int_of_long_small by lia. reflexivity. }
  assert (Hnodes : extent (get_ifnodes op) 0 = n).
  { unfold op. rewrite build_ifnodes. unfold extent. rewrite Hshape.
    reflexivity. }
  split; [exact Hrank|]. split; [exact Hnodes|]. split.
  - rewrite Hrank, Hnodes. intros Heq. injection Heq as Heq. nia.
  - intros (m & Hm & _ & Hext & _).
    rewrite Hrank in Hm. rewrite Hnodes in Hext. injection Hm as Hm. nia.
Qed.
End Build.

End Construction.

(** C9 at the example fields. *)
Lemma from_fields_rank_from_cf2if_columns_witness :
  rank Example.ex_op = Some 2 ∧ eps_ Example.ex_op = None.
Proof.
  pose proof (from_fields_rank_from_cf2if_columns
                Example.ex_lambda Example.ex_eps Example.ex_rf Example.ex_if
                Example.ex_cf2if Example.ex_lu Example.ex_piv) as Hw.
  cbn zeta in Hw.
  destruct Hw as (Hr & _ & _ & _ & _ & _ & _ & _ & He & _).
  - vm_compute. reflexivity.
  - split; [exact Hr | exact He].
Defined.

(** C4 at the example collaborators: one node, rank two. *)
Lemma build_breaks_shape_invariant_witness :
  rank Example.ex_built = Some 2
  ∧ extent (get_ifnodes Example.ex_built) 0 = 1%nat
  ∧ ¬ shape_invariant Example.ex_built.
Proof.
  destruct (build_breaks_shape_invariant
              Example.ex_build_dlr2d_if Example.ex_build_dlr_rf
              Example.ex_build_cf2if Example.ex_getrf
              Example.ex_lambda Example.ex_eps 1%nat 2%nat)
    as (Hr & Hn & _ & Hinv).
  - reflexivity.
  - lia.
  - lia.
  - reflexivity.
  - split; [exact Hr|]. split; [exact Hn | exact Hinv].
Defined.

(** The field-wise constructor does not check its arguments against each
    other: rebuilt from three real frequencies, one node and a 2 x 2 matrix,
    the operator has rank 2, which is neither the length of its
    real-frequency basis nor its number of nodes. *)
Lemma shape_invariant_counterexample :
  ¬ (∀ (lambda eps : Qc) (rf : array Qc) (nodes : array Z)
       (cf lu : array Qc) (piv : array Z),
        shape_invariant
          (imfreq_ops_2d_from_fields lambda eps rf nodes cf lu piv)).
Proof.
  intros Hall.
  destruct (Hall Example.ex_lambda Example.ex_eps Example.bad_rf Example.bad_if
                 Example.ex_cf2if Example.ex_lu Example.ex_piv)
    as (n & _ & Hrf & _ & Hcf & _).
  cbn in Hrf, Hcf. congruence.
Qed.

(** The example fields have matching extents. *)
Lemma from_fields_keeps_shape_invariant_witness :
  rank Example.ex_op = Some 2 ∧ shape_invariant Example.ex_op.
Proof.
  apply (from_fields_keeps_shape_invariant
           Example.ex_lambda Example.ex_eps Example.ex_rf Example.ex_if
           Example.ex_cf2if Example.ex_lu Example.ex_piv 2%nat);
    try reflexivity.
Defined.

(** ** Rejection of arrays of the wrong leading length *)

Section Rejection.
Context {D F : Type} `{Scalar F}.

(** C3: when the leading extent of the input differs from the rank, both
    transforms throw a runtime error; [vals2coefs] does so before it
    allocates or writes anything, so no array is returned and the store
    is as it was. *)
Theorem transforms_reject_wrong_leading_extent
    {S : Type} `{Promote S F} (op : imfreq_ops_2d D F) (n : Z)
    (g : array F) (gc : array S) (σ : list (array F)) (l : loc) :
  rank op = Some n →
  σ !! l = Some g →
  n ≠ Z.of_nat (extent g 0) →
  n ≠ Z.of_nat (extent gc 0) →
  vals2coefs_st op l σ
    = (Throw (runtime_error
                "First dim of g != # DLR imaginary frequency nodes."), σ)
  ∧ vals2coefs op g
    = Throw (runtime_error
               "First dim of g != # DLR imaginary frequency nodes.")
  ∧ coefs2vals op gc
    = Throw (runtime_error "First dim of gc != DLR rank r.").
Proof.
  unfold rank. intros Hr Hl Hg Hgc. repeat split.
  - unfold vals2coefs_st, m_bind, load, m_lift. rewrite Hl, Hr. cbn.
    destruct (decide (n ≠ Z.of_nat (extent g 0))); [reflexivity | contradiction].
  - unfold vals2coefs, vals2coefs_st, m_bind, load, m_lift. cbn. rewrite Hr. cbn.
    destruct (decide (n ≠ Z.of_nat (extent g 0))); [reflexivity | contradiction].
  - unfold coefs2vals. rewrite Hr. cbn.
    destruct (decide (n ≠ Z.of_nat (extent gc 0))); [reflexivity | contradiction].
Qed.

(** C10: on a rank-1 coefficient array whose length is the rank of the
    operator, [coefs2eval] returns the complex zero, whatever the
    coefficients and whatever the pair of Matsubara indices. *)
Theorem coefs2eval_rank1_is_zero
    {S : Type} (op : imfreq_ops_2d D F) (k : nat) (gc : array S) (n m : Z) :
  rank op = Some (Z.of_nat k) →
  a_shape gc = [k] →
  coefs2eval op gc n m = Ok (EvalScalar szero).
Proof.
  unfold rank. intros Hr Hshape.
  unfold coefs2eval, extent, arr_rank. rewrite Hr, Hshape. cbn.
  destruct (decide (Z.of_nat k ≠ Z.of_nat k)); [contradiction|].
  reflexivity.
Qed.

End Rejection.

(** C3 at the example operator, with arrays of leading length 3. *)
Lemma transforms_reject_wrong_leading_extent_witness :
  vals2coefs Example.ex_op (mk_array [3; 1]%nat [Example.q 1; Example.q 2; Example.q 3])
    = Throw (runtime_error "First dim of g != # DLR imaginary frequency nodes.")
  ∧ coefs2vals Example.ex_op
      (mk_array [3; 1]%nat [Example.q 1; Example.q 2; Example.q 3])
    = Throw (runtime_error "First dim of gc != DLR rank r.").
Proof.
  pose proof (transforms_reject_wrong_leading_extent
                (S := Qc) Example.ex_op 2
                (mk_array [3; 1]%nat [Example.q 1; Example.q 2; Example.q 3])
                (mk_array [3; 1]%nat [Example.q 1; Example.q 2; Example.q 3])
                [mk_array [3; 1]%nat [Example.q 1; Example.q 2; Example.q 3]]
                0%nat) as Hw.
  destruct Hw as (_ & Hv & Hc).
  - vm_compute. reflexivity.
  - reflexivity.
  - vm_compute. discriminate.
  - vm_compute. discriminate.
  - split; [exact Hv | exact Hc].
Defined.

(** C10 at the example operator. *)
Lemma coefs2eval_rank1_is_zero_witness :
  coefs2eval Example.ex_op (mk_array [2%nat] [Example.q 5; Example.q 7]) 3 (-4)
  = Ok (EvalScalar 0%Qc).
Proof.
  change 0%Qc with (@szero Qc _).
  apply (coefs2eval_rank1_is_zero Example.ex_op 2%nat).
  - vm_compute. reflexivity.
  - reflexivity.
Defined.


(** ** Persistence *)

Section Persistence.
Context {D F : Type} `{Scalar F}.

(** The transforms read the rank, the matrix, the factors and the pivots,
    and nothing else of the operator. *)
Lemma transforms_read_four_members (op op' : imfreq_ops_2d D F) :
  r op = r op' → cf2if op = cf2if op' →
  if2cf_lu op = if2cf_lu op' → if2cf_piv op = if2cf_piv op' →
  (∀ l σ, vals2coefs_st op l σ = vals2coefs_st op' l σ)
  ∧ (∀ g, vals2coefs op g = vals2coefs op' g)
  ∧ (∀ (S : Type) (P : Promote S F) (gc : array S),
       coefs2vals op gc = coefs2vals op' gc).
Proof.
  intros Hr Hcf Hlu Hpiv.
  assert (Hst : ∀ l σ, vals2coefs_st op l σ = vals2coefs_st op' l σ).
  { intros l σ. unfold vals2coefs_st. rewrite Hr, Hlu, Hpiv. reflexivity. }
  split; [exact Hst|]. split.
  - intros g. unfold vals2coefs. rewrite Hst. reflexivity.
  - intros S P gc. unfold coefs2vals. rewrite Hr, Hcf. reflexivity.
Qed.

(** What [h5_write] stores carries the format tag of the class. *)
Lemma h5_write_tags fg name (op : imfreq_ops_2d D F) fg' :
  h5_write fg name op = Ok fg' →
  ∃ gr, fg' !! name = Some gr ∧ h5_attr_format gr = Some hdf5_format.
Proof.
  unfold h5_write. intros Hw.
  destruct (lambda op) as [lam|]; [|discriminate].
  destruct (eps op) as [e|]; [|discriminate].
  cbn in Hw. injection Hw as <-.
  eexists. rewrite lookup_insert_eq. split; reflexivity.
Qed.

(** Reading back what was written calls the field-wise constructor on the
    stored fields, after reading the seven of them in order. *)
Lemma h5_read_after_write fg name (op m : imfreq_ops_2d D F) lam e log :
  lambda_ op = Some lam →
  eps_ op = Some e →
  ∃ fg',
    h5_write fg name op = Ok fg'
    ∧ h5_read fg' name m log
      = (Ok (imfreq_ops_2d_from_fields lam e (dlr_rf op) (dlr2d_if op)
               (cf2if op) (if2cf_lu op) (if2cf_piv op)),
         log ++ ["lambda"; "eps"; "rf"; "if"; "cf2if"; "if2cf_lu";
                 "if2cf_piv"]).
Proof.
  intros Hlam Heps. unfold h5_write, lambda, eps. rewrite Hlam, Heps. cbn.
  eexists. split; [reflexivity|].
  unfold h5_read, open_group. rewrite lookup_insert_eq.
  unfold m_bind, m_ret, h5_get, h5_put. cbn.
  repeat (rewrite ?lookup_insert_eq, ?lookup_insert_ne by (intros ?; discriminate)).
  cbn. unfold assert_hdf5_format_as_string. cbn.
  destruct (decide ("cppdlr::imfreq_ops" = "cppdlr::imfreq_ops")); [|done].
  cbn. repeat rewrite <- app_assoc. reflexivity.
Qed.

(** C6: a stored record whose format tag is not the one of the class is
    refused with the format-mismatch error, and the list of fields read is
    the one from before the call: no field of the record has been read. *)
Theorem h5_read_rejects_other_format
    (fg : gmap string (h5_group D F)) (name : string) (gr : h5_group D F)
    (tag : string) (m : imfreq_ops_2d D F) (log : list string) :
  fg !! name = Some gr →
  h5_attr_format gr = Some tag →
  tag ≠ hdf5_format →
  h5_read fg name m log
  = (Throw (runtime_error "h5_read : mismatch of the Format tag"), log).
Proof.
  intros Hgr Htag Hne.
  unfold h5_read, open_group, m_bind. rewrite Hgr. cbn.
  unfold assert_hdf5_format_as_string. rewrite Htag.
  destruct (decide (tag = "cppdlr::imfreq_ops")) as [->|_]; [|reflexivity].
  exfalso. apply Hne. reflexivity.
Qed.

(** An archive written by [serialize] is read back member by member;
    the tolerance is not among the members and stays what it was in the
    target. *)
Lemma deserialize_after_serialize (op m : imfreq_ops_2d D F) lam rk ar :
  lambda_ op = Some lam →
  r op = Some rk →
  ∃ items,
    serialize op [] = Ok items
    ∧ deserialize m (items ++ ar)
      = Ok ({| lambda_ := Some lam; eps_ := eps_ m; r := Some rk;
               dlr_rf := dlr_rf op; dlr2d_if := dlr2d_if op;
               cf2if := cf2if op; if2cf_lu := if2cf_lu op;
               if2cf_piv := if2cf_piv op |}, ar).
Proof.
  intros Hlam Hr. unfold serialize. rewrite Hlam, Hr. cbn.
  eexists. split; reflexivity.
Qed.

End Persistence.

(** C6 at a record tagged for another class. *)
Lemma h5_read_rejects_other_format_witness :
  h5_read (<["ifops" := Example.foreign_group]> ∅) "ifops" imfreq_ops_2d_default []
  = (Throw (runtime_error "h5_read : mismatch of the Format tag"), []).
Proof.
  apply (h5_read_rejects_other_format _ "ifops" Example.foreign_group
           "cppdlr::imtime_ops").
  - apply lookup_insert_eq.
  - reflexivity.
  - discriminate.
Defined.

(** C5 at the example operator left by the computing constructor with
    tolerance 1e-5: written and read back, the operator has the same
    cutoff and transforms the example values alike, but its tolerance member
    is indeterminate. *)
Theorem h5_roundtrip_loses_tolerance :
  ∃ fg op',
    h5_write ∅ "ifops" Example.ex_built = Ok fg
    ∧ (h5_read fg "ifops" imfreq_ops_2d_default []).1 = Ok op'
    ∧ lambda op' = lambda Example.ex_built
    ∧ vals2coefs op' Example.ex_g = vals2coefs Example.ex_built Example.ex_g
    ∧ coefs2vals op' Example.ex_g = coefs2vals Example.ex_built Example.ex_g
    ∧ eps Example.ex_built = Some Example.ex_eps
    ∧ eps op' = None.
Proof.
  destruct (h5_read_after_write (∅ : gmap string (h5_group Qc Qc)) "ifops"
              Example.ex_built imfreq_ops_2d_default
              Example.ex_lambda Example.ex_eps [] eq_refl eq_refl)
    as (fg & Hw & Hr).
  exists fg. eexists. split; [exact Hw|]. split; [rewrite Hr; reflexivity|].
  repeat split; reflexivity.
Qed.

Local Open Scope nat_scope.

(** ** Lists, rows and columns *)

Section ListFacts.
Context {A : Type}.
Implicit Types (l : list A) (rows : list (list A)).

Lemma length_chunks m k l : length (chunks m k l) = m.
Proof. revert l. induction m as [|m IH]; intros l; cbn; [done|]. by rewrite IH. Qed.

Lemma chunks_rows_length m k l :
  length l = m * k → Forall (λ row, length row = k) (chunks m k l).
Proof.
  revert l. induction m as [|m IH]; intros l Hl; cbn; [constructor|].
  constructor.
  - rewrite length_take. lia.
  - apply IH. rewrite length_drop. lia.
Qed.

Lemma concat_chunks m k l : length l = m * k → concat (chunks m k l) = l.
Proof.
  revert l. induction m as [|m IH]; intros l Hl; cbn.
  - destruct l; [done|discriminate].
  - rewrite IH by (rewrite length_drop; lia). apply take_drop.
Qed.

Lemma chunks_concat m k rows :
  length rows = m → Forall (λ row, length row = k) rows →
  chunks m k (concat rows) = rows.
Proof.
  revert m. induction rows as [|row rows IH]; intros m Hm Hrows; subst m; cbn; [done|].
  inversion Hrows as [|? ? Hrow Hrest]; subst.
  rewrite take_app_length, drop_app_length. f_equal. by apply IH.
Qed.

Lemma length_concat_rect k rows :
  Forall (λ row, length row = k) rows → length (concat rows) = length rows * k.
Proof.
  induction 1 as [|row rows Hrow _ IH]; cbn; [done|].
  rewrite length_app, IH, Hrow. lia.
Qed.

Lemma map_nth_seq (d : A) n l :
  length l = n → (λ i, nth i l d) <$> seq 0 n = l.
Proof.
  intros Hl. apply list_eq. intros i.
  rewrite list_lookup_fmap.
  destruct (decide (i < n)) as [Hi|Hi].
  - rewrite lookup_seq_lt by done. cbn.
    destruct (lookup_lt_is_Some_2 l i) as [x Hx]; [lia|].
    rewrite Hx. f_equal. by apply nth_lookup_Some with (d := d) in Hx.
  - rewrite lookup_seq_ge by lia. cbn. symmetry. apply lookup_ge_None. lia.
Qed.

Lemma chunks_fmap {B} (f : A → B) m k l :
  chunks m k (f <$> l) = (λ row : list A, f <$> row) <$> chunks m k l.
Proof.
  revert l. induction m as [|m IH]; intros l; cbn; [done|].
  by rewrite <- fmap_take, <- fmap_drop, IH.
Qed.

Lemma omap_lookup_rect (d : A) j k rows :
  j < k → Forall (λ row, length row = k) rows →
  omap (λ row, row !! j) rows = (λ row, nth j row d) <$> rows.
Proof.
  intros Hj. induction 1 as [|row rows Hrow _ IH]; cbn; [done|].
  destruct (lookup_lt_is_Some_2 row j) as [x Hx]; [lia|].
  rewrite Hx. cbn. rewrite IH. f_equal.
  symmetry. by apply nth_lookup_Some.
Qed.
End ListFacts.

Section LinAlgShape.
Context {F : Type} `{Scalar F}.
Implicit Types (rows cols : list (list F)).

Lemma length_of_cols m cols : length (of_cols m cols) = m.
Proof. unfold of_cols. by rewrite length_fmap, length_seq. Qed.

Lemma of_cols_rows_length m cols :
  Forall (λ row, length row = length cols) (of_cols m cols).
Proof.
  unfold of_cols. apply Forall_fmap, Forall_forall. intros i _. cbn.
  by rewrite length_fmap.
Qed.

Lemma length_cols_of k rows : length (cols_of k rows) = k.
Proof. unfold cols_of. by rewrite length_fmap, length_seq. Qed.

Lemma cols_of_cols_length k rows :
  Forall (λ c, length c = length rows) (cols_of k rows).
Proof.
  unfold cols_of. apply Forall_fmap, Forall_forall. intros j _. cbn.
  unfold col. by rewrite length_fmap.
Qed.

Lemma col_of_cols m cols j c :
  cols !! j = Some c → length c = m → col j (of_cols m cols) = c.
Proof.
  intros Hj Hc. unfold col, of_cols. rewrite <- list_fmap_compose.
  etrans; [|apply (map_nth_seq szero m c Hc)].
  apply list_fmap_ext. intros _ i _. cbn.
  apply nth_lookup_Some. by rewrite list_lookup_fmap, Hj.
Qed.

Lemma cols_of_of_cols m k cols :
  length cols = k → Forall (λ c, length c = m) cols →
  cols_of k (of_cols m cols) = cols.
Proof.
  intros Hk Hcols. unfold cols_of. apply list_eq. intros j.
  rewrite list_lookup_fmap.
  destruct (decide (j < k)) as [Hj|Hj].
  - rewrite lookup_seq_lt by done. cbn.
    destruct (lookup_lt_is_Some_2 cols j) as [c Hc]; [lia|].
    rewrite Hc. f_equal. apply col_of_cols; [done|].
    by eapply Forall_lookup_1 in Hcols.
  - rewrite lookup_seq_ge by lia. cbn. symmetry. apply lookup_ge_None. lia.
Qed.

Lemma row_of_cols_of k rows i row :
  rows !! i = Some row → length row = k →
  (λ c, nth i c szero) <$> cols_of k rows = row.
Proof.
  intros Hi Hrow. unfold cols_of. rewrite <- list_fmap_compose.
  etrans; [|apply (map_nth_seq szero k row Hrow)].
  apply list_fmap_ext. intros _ j _. cbn.
  apply nth_lookup_Some. unfold col. by rewrite list_lookup_fmap, Hi.
Qed.

Lemma of_cols_cols_of m k rows :
  length rows = m → Forall (λ row, length row = k) rows →
  of_cols m (cols_of k rows) = rows.
Proof.
  intros Hm Hrows. unfold of_cols. apply list_eq. intros i.
  rewrite list_lookup_fmap.
  destruct (decide (i < m)) as [Hi|Hi].
  - rewrite lookup_seq_lt by done. cbn.
    destruct (lookup_lt_is_Some_2 rows i) as [row Hrow]; [lia|].
    rewrite Hrow. f_equal. apply row_of_cols_of; [done|].
    by eapply Forall_lookup_1 in Hrows.
  - rewrite lookup_seq_ge by lia. cbn. symmetry. apply lookup_ge_None. lia.
Qed.

Lemma length_swap {A} i j (l : list A) : length (swap i j l) = length l.
Proof.
  unfold swap. destruct (l !! i), (l !! j); try done.
  by rewrite !length_insert.
Qed.

Lemma length_laswp_from {A} i piv (l : list A) :
  length (laswp_from i piv l) = length l.
Proof.
  revert i l. induction piv as [|p piv IH]; intros i l; cbn; [done|].
  by rewrite IH, length_swap.
Qed.

Lemma length_forward rows c acc :
  length (forward rows c acc) = length acc + min (length rows) (length c).
Proof.
  revert c acc. induction rows as [|row rows IH]; intros [|ci c] acc; cbn; try lia.
  rewrite IH, length_app. cbn. lia.
Qed.

Lemma length_backward rows y i :
  length (backward rows y i) = min (length rows) (length y).
Proof.
  revert y i. induction rows as [|row rows IH]; intros [|yi y] i; cbn; try lia.
  by rewrite IH.
Qed.

Lemma length_getrs_col lu piv b :
  length lu = length b → length (getrs_col lu piv b) = length b.
Proof.
  intros Hlu. unfold getrs_col, laswp.
  rewrite length_backward, length_forward, length_laswp_from. cbn. lia.
Qed.

Lemma length_mm n a b : length (mm n a b) = length a.
Proof. unfold mm. by rewrite length_fmap. Qed.

Lemma mm_rows_length n a b : Forall (λ row, length row = n) (mm n a b).
Proof.
  unfold mm. apply Forall_fmap, Forall_forall. intros row _. cbn.
  by rewrite length_fmap, length_seq.
Qed.

Lemma col_mm n a b j :
  j < n → col j (mm n a b) = matvec a (col j b).
Proof.
  intros Hj. unfold col at 1, mm, matvec. rewrite <- list_fmap_compose.
  apply list_fmap_ext. intros _ row _. cbn.
  apply nth_lookup_Some. rewrite list_lookup_fmap, lookup_seq_lt by done.
  reflexivity.
Qed.

(** A vector seen as a one-column matrix. *)
Lemma col_chunks_1 (c : list F) n :
  length c = n → col 0 (chunks n 1 c) = c.
Proof.
  revert c. induction n as [|n IH]; intros [|x c] Hc; try discriminate; cbn; [done|].
  f_equal. rewrite drop_0. apply IH. cbn in Hc. lia.
Qed.

Lemma concat_of_cols_1 (x : list F) n :
  length x = n → concat (of_cols n [x]) = x.
Proof.
  intros Hx. unfold of_cols. cbn.
  etrans; [|apply (map_nth_seq szero n x Hx)].
  generalize (seq 0 n). intros s. induction s as [|i s IH]; cbn; [done|].
  by rewrite IH.
Qed.
End LinAlgShape.

Section Swaps.
Context {A : Type}.
Implicit Types (l u v : list A).

Lemma swap_swap i j l : swap i j (swap i j l) = l.
Proof.
  unfold swap at 2.
  destruct (l !! i) as [a|] eqn:Hi; [|by unfold swap; rewrite Hi].
  destruct (l !! j) as [b|] eqn:Hj; [|by unfold swap; rewrite Hi, Hj].
  pose proof (lookup_lt_Some _ _ _ Hi) as Hil.
  pose proof (lookup_lt_Some _ _ _ Hj) as Hjl.
  unfold swap.
  rewrite list_lookup_insert_eq by (by rewrite length_insert).
  destruct (decide (i = j)) as [->|Hne].
  - rewrite list_lookup_insert_eq by (by rewrite length_insert).
    rewrite !list_insert_insert_eq.
    assert (a = b) by congruence. subst b. by apply list_insert_id.
  - rewrite list_lookup_insert_ne, list_lookup_insert_eq by done.
    apply list_eq. intros t.
    destruct (decide (t = i)) as [->|Hti].
    + rewrite list_lookup_insert_eq by (by rewrite !length_insert). done.
    + rewrite list_lookup_insert_ne by done.
      destruct (decide (t = j)) as [->|Htj].
      * rewrite list_lookup_insert_eq by (by rewrite !length_insert). done.
      * by rewrite !list_lookup_insert_ne by done.
Qed.

Lemma laswp_from_inj i piv u v :
  laswp_from i piv u = laswp_from i piv v → u = v.
Proof.
  revert i u v. induction piv as [|p piv IH]; intros i u v Heq; cbn in Heq; [done|].
  apply IH in Heq.
  rewrite <- (swap_swap i (Z.to_nat (p - 1)) u), Heq. apply swap_swap.
Qed.

Lemma fmap_swap {B} (f : A → B) i j l : f <$> swap i j l = swap i j (f <$> l).
Proof.
  unfold swap. rewrite !list_lookup_fmap.
  destruct (l !! i), (l !! j); cbn; try done.
  by rewrite !list_fmap_insert.
Qed.

Lemma fmap_laswp_from {B} (f : A → B) i piv l :
  f <$> laswp_from i piv l = laswp_from i piv (f <$> l).
Proof.
  revert i l. induction piv as [|p piv IH]; intros i l; cbn; [done|].
  by rewrite IH, fmap_swap.
Qed.
End Swaps.
(** ** What the transforms compute *)

Section Runs.
Context {D F : Type} `{Scalar F}.

Lemma batched_shape {A} n (g : array A) :
  batched n g →
  a_shape g = n :: tail (a_shape g)
  ∧ extent g 0 = n
  ∧ arr_size g = n * batch_size g
  ∧ length (a_data g) = n * batch_size g.
Proof.
  intros [Hhd Hwf]. unfold wf_array, arr_size, extent, batch_size in *.
  destruct (a_shape g) as [|n' rest]; [discriminate|].
  injection Hhd as ->. cbn in *. done.
Qed.

Lemma batch_quotient (n k : nat) :
  0 < n → Z.to_nat (Z.of_nat (n * k) ÷ Z.of_nat n) = k.
Proof.
  intros Hn. rewrite Z.quot_div_nonneg by lia.
  rewrite Nat2Z.inj_mul, Z.mul_comm, Z.div_mul by lia. lia.
Qed.

Lemma length_solved (op : imfreq_ops_2d D F) n k b :
  length (solved op n k b) = n * k.
Proof.
  unfold solved.
  rewrite (length_concat_rect k).
  - by rewrite length_of_cols.
  - eapply Forall_impl; [apply of_cols_rows_length|].
    intros row Hrow. cbn in Hrow. by rewrite Hrow, length_fmap, length_cols_of.
Qed.

Lemma length_applied (op : imfreq_ops_2d D F) n k x :
  length (applied op n k x) = n * k.
Proof.
  unfold applied. rewrite (length_concat_rect k) by apply mm_rows_length.
  by rewrite length_mm, length_chunks.
Qed.

(** What a call of [vals2coefs] does to the store and what it returns. *)
Lemma vals2coefs_st_run (op : imfreq_ops_2d D F) n (g : array F) σ l :
  populated op n → batched n g → σ !! l = Some g →
  let x := mk_array (a_shape g) (solved op n (batch_size g) (a_data g)) in
  vals2coefs_st op l σ = (Ok x, σ ++ [x]).
Proof.
  intros (Hr & Hn & _ & _ & Hlu & _ & Hpiv & Hwpiv & Hpok) Hg Hl x.
  destruct (batched_shape n g Hg) as (Hshape & Hext & Hsize & Hlen).
  unfold rank in Hr. unfold get_if2cf_lu, get_if2cf_piv in *.
  unfold vals2coefs_st, m_bind, load, m_lift. rewrite Hl, Hr. cbn.
  rewrite Hext.
  destruct (decide (Z.of_nat n ≠ Z.of_nat n)) as [?|_]; [done|].
  unfold alloc.
  destruct (decide (Z.of_nat n = 0%Z)) as [?|_]; [lia|].
  unfold reshape_view, m_bind, load, m_ret, m_lift.
  rewrite lookup_app_r, Nat.sub_diag by done. cbn.
  rewrite Hsize, batch_quotient, Nat2Z.id by done.
  destruct (decide (n * (batch_size g * 1) = n * batch_size g)) as [_|?]; [|lia].
  unfold getrs_inplace, m_bind, load, m_lift. cbn.
  rewrite lookup_app_r, Nat.sub_diag by done. cbn.
  unfold getrs. cbn. rewrite Hlu.
  unfold wf_array, arr_size in Hwpiv. rewrite Hpiv in Hwpiv. cbn in Hwpiv.
  assert (Htake : take n (a_data (if2cf_piv op)) = a_data (if2cf_piv op)).
  { apply take_ge. lia. }
  rewrite Htake.
  destruct (decide _) as [_|Hno]; [|exfalso; apply Hno; repeat split; try done; lia].
  cbn. unfold write.
  rewrite length_app. cbn.
  destruct (decide _) as [_|?]; [|lia].
  rewrite insert_app_r_alt, Nat.sub_diag by done. cbn.
  rewrite lookup_app_r, Nat.sub_diag by done. cbn.
  unfold slice_leading. cbn.
  fold (solved op n (batch_size g) (a_data g)).
  fold (batch_size g).
  rewrite take_ge by (rewrite length_solved; lia).
  rewrite <- Hshape. reflexivity.
Qed.
End Runs.

Section Runs2.
Context {D F : Type} `{Scalar F}.

Lemma coefs2vals_run {S : Type} `{Promote S F}
    (op : imfreq_ops_2d D F) n (gc : array S) :
  populated op n → batched n gc →
  coefs2vals op gc
  = Ok (mk_array (a_shape gc)
          (applied op n (batch_size gc) (promote <$> a_data gc))).
Proof.
  intros (Hr & Hn & Hcf & _) Hg.
  destruct (batched_shape n gc Hg) as (Hshape & Hext & Hsize & Hlen).
  unfold rank in Hr. unfold get_cf2if in *.
  unfold coefs2vals. rewrite Hr. cbn. rewrite Hext.
  destruct (decide (Z.of_nat n ≠ Z.of_nat n)) as [?|_]; [done|].
  destruct (decide (Z.of_nat n = 0%Z)) as [?|_]; [lia|].
  unfold reshape. rewrite Hsize, batch_quotient, Nat2Z.id by done. cbn.
  destruct (decide (n * (batch_size gc * 1) = n * batch_size gc)) as [_|?]; [|lia].
  cbn. unfold matmul. cbn. rewrite Hcf.
  destruct (decide (n = n)) as [_|?]; [|done].
  cbn. unfold arr_size. cbn. fold (batch_size gc).
  destruct (decide _) as [_|Hno]; [|unfold batch_size, prod_list in Hno; lia].
  fold (applied op n (batch_size gc) (promote <$> a_data gc)).
  rewrite <- Hshape. reflexivity.
Qed.

Lemma length_omap_lookup_rect {A} j k (rows : list (list A)) :
  j < k → Forall (λ row, length row = k) rows →
  length (omap (λ row, row !! j) rows) = length rows.
Proof.
  intros Hj. induction 1 as [|row rows Hrow _ IH]; cbn; [done|].
  destruct (lookup_lt_is_Some_2 row j) as [x Hx]; [lia|].
  rewrite Hx. cbn. by rewrite IH.
Qed.

Lemma fmap_omap_lookup_rect {A} (f : A → F) j k (rows : list (list A)) :
  j < k → Forall (λ row, length row = k) rows →
  f <$> omap (λ row, row !! j) rows
  = col j ((λ row : list A, f <$> row) <$> rows).
Proof.
  intros Hj. induction 1 as [|row rows Hrow _ IH]; cbn; [done|].
  destruct (lookup_lt_is_Some_2 row j) as [x Hx]; [lia|].
  rewrite Hx. cbn. rewrite IH. f_equal.
  symmetry. apply nth_lookup_Some. by rewrite list_lookup_fmap, Hx.
Qed.

Lemma column_batched {A} n j (g : array A) :
  batched n g → j < batch_size g →
  batched n (column j g) ∧ batch_size (column j g) = 1.
Proof.
  intros Hg Hj.
  destruct (batched_shape n g Hg) as (Hshape & Hext & Hsize & Hlen).
  unfold column. rewrite Hext. split; [|reflexivity].
  split; [reflexivity|].
  unfold wf_array, arr_size. cbn.
  rewrite (length_omap_lookup_rect j (batch_size g)), length_chunks; [lia|done|].
  by apply chunks_rows_length.
Qed.

Lemma concat_mm_1 (a : list (list F)) (c : list F) n :
  length c = n → concat (mm 1 a (chunks n 1 c)) = matvec a c.
Proof.
  intros Hc. unfold mm, matvec. cbn. rewrite (col_chunks_1 c n Hc).
  induction a as [|row a IH]; cbn; [done|]. by rewrite IH.
Qed.

Lemma column_solved (op : imfreq_ops_2d D F) n k j b :
  length b = n * k → j < k →
  omap (λ row, row !! j) (chunks n k (solved op n k b))
  = getrs_col (chunks n n (a_data (if2cf_lu op))) (a_data (if2cf_piv op))
      (col j (chunks n k b)).
Proof.
  intros Hb Hj. unfold solved.
  set (xs := _ <$> cols_of k (chunks n k b)).
  assert (Hxs : length xs = k) by (unfold xs; by rewrite length_fmap, length_cols_of).
  assert (Hrect : Forall (λ row, length row = k) (of_cols n xs)).
  { rewrite <- Hxs. apply of_cols_rows_length. }
  rewrite chunks_concat by (by rewrite ?length_of_cols).
  rewrite (omap_lookup_rect szero j k) by done.
  fold (col j (of_cols n xs)).
  apply col_of_cols.
  - unfold xs, cols_of. rewrite !list_lookup_fmap, lookup_seq_lt by done.
    reflexivity.
  - rewrite length_getrs_col; unfold col; rewrite length_fmap, !length_chunks; done.
Qed.

Lemma solved_single (op : imfreq_ops_2d D F) n c :
  a_shape (if2cf_lu op) = [n; n] → length c = n →
  solved op n 1 c
  = getrs_col (chunks n n (a_data (if2cf_lu op))) (a_data (if2cf_piv op)) c.
Proof.
  intros Hlu Hc. unfold solved, cols_of. cbn.
  rewrite (col_chunks_1 c n Hc).
  apply concat_of_cols_1.
  rewrite length_getrs_col; rewrite ?length_chunks; done.
Qed.
End Runs2.

Section Transforms.
Context {D F : Type} `{Scalar F}.

Lemma vals2coefs_run (op : imfreq_ops_2d D F) n (g : array F) :
  populated op n → batched n g →
  vals2coefs op g
  = Ok (mk_array (a_shape g) (solved op n (batch_size g) (a_data g))).
Proof.
  intros Hop Hg. unfold vals2coefs.
  rewrite (vals2coefs_st_run op n g [g] 0 Hop Hg eq_refl). reflexivity.
Qed.

Lemma column_of_result {A B} (g : array A) (x : list B) n j :
  batched n g →
  column j (mk_array (a_shape g) x)
  = mk_array [n] (omap (λ row, row !! j) (chunks n (batch_size g) x)).
Proof.
  intros Hg. destruct (batched_shape n g Hg) as (Hshape & Hext & _).
  unfold column, extent, batch_size in *. cbn. by rewrite Hext.
Qed.

(** C7: for a ready operator and batched arrays with leading length the
    rank, each transform of the whole batch succeeds, and column [j] of the
    reshaped result is exactly what the same transform returns on column
    [j] alone. *)
Theorem transforms_act_on_each_column {S : Type} `{Promote S F}
    (op : imfreq_ops_2d D F) (n : nat) (g : array F) (gc : array S) (j : nat) :
  populated op n → batched n g → batched n gc →
  j < batch_size g → j < batch_size gc →
  (∃ x, vals2coefs op g = Ok x
        ∧ vals2coefs op (column j g) = Ok (column j x))
  ∧ (∃ v, coefs2vals op gc = Ok v
          ∧ coefs2vals op (column j gc) = Ok (column j v)).
Proof.
  intros Hop Hg Hgc Hj Hjc.
  pose proof Hop as (_ & Hn & Hcf & _ & Hlu & _).
  unfold get_cf2if, get_if2cf_lu in *.
  split.
  - destruct (batched_shape n g Hg) as (Hshape & Hext & Hsize & Hlen).
    destruct (column_batched n j g Hg Hj) as [Hcol Hone].
    eexists. split; [by apply vals2coefs_run|].
    rewrite (vals2coefs_run op n (column j g) Hop Hcol), Hone.
    rewrite (column_of_result g _ n j Hg).
    rewrite column_solved by done.
    f_equal. unfold column at 1 2. cbn. rewrite Hext. f_equal.
    rewrite (omap_lookup_rect szero j (batch_size g))
      by (done || by apply chunks_rows_length).
    fold (col j (chunks n (batch_size g) (a_data g))).
    apply solved_single; [done|].
    unfold col. by rewrite length_fmap, length_chunks.
  - destruct (batched_shape n gc Hgc) as (Hshape & Hext & Hsize & Hlen).
    destruct (column_batched n j gc Hgc Hjc) as [Hcol Hone].
    eexists. split; [by apply coefs2vals_run|].
    rewrite (coefs2vals_run op n (column j gc) Hop Hcol), Hone.
    rewrite (column_of_result gc _ n j Hgc).
    f_equal. unfold column at 1 2. cbn. rewrite Hext. f_equal.
    unfold applied.
    rewrite (fmap_omap_lookup_rect promote j (batch_size gc))
      by (done || by apply chunks_rows_length).
    rewrite <- chunks_fmap.
    set (b := chunks n (batch_size gc) (promote <$> a_data gc)).
    rewrite concat_mm_1 by (unfold col, b; by rewrite length_fmap, length_chunks).
    rewrite chunks_concat
      by (rewrite ?length_mm, ?length_chunks; done || apply mm_rows_length).
    rewrite (omap_lookup_rect szero j (batch_size gc))
      by (done || apply mm_rows_length).
    fold (col j (mm (batch_size gc) (chunks n n (a_data (cf2if op))) b)).
    by rewrite col_mm.
Qed.
End Transforms.

(** ** Exact arithmetic *)

(** From here to the end of the section the scalars obey the laws of a
    field. *)
Section Exact.
Context {F : Type} `{Scalar F}.
Hypothesis Fth : field_theory szero sone sadd smul ssub sopp sdiv sinv (@eq F).
Add Field Ff : Fth.

Implicit Types (u v x y c : list F) (rows : list (list F)).

Lemma dot_nil_r u : dot u [] = szero.
Proof. by destruct u. Qed.

Lemma dot_zeros_l m v : dot (replicate m szero) v = szero.
Proof.
  revert v. induction m as [|m IH]; intros [|b v]; cbn; try done.
  rewrite IH. ring.
Qed.

Lemma dot_app u1 u2 v1 v2 :
  length u1 = length v1 →
  dot (u1 ++ u2) (v1 ++ v2) = sadd (dot u1 v1) (dot u2 v2).
Proof.
  revert v1. induction u1 as [|a u1 IH]; intros [|b v1] Hlen; try discriminate; cbn.
  - ring.
  - rewrite IH by (cbn in Hlen; lia). ring.
Qed.

Lemma dot_take_l u v : dot (take (length v) u) v = dot u v.
Proof.
  revert u. induction v as [|b v IH]; intros [|a u]; cbn; try done.
  by rewrite IH.
Qed.

Lemma dot_fmap_linear {A} (a : F) (f g : A → F) (s : list A) x :
  dot ((λ j, sadd (smul a (f j)) (g j)) <$> s) x
  = sadd (smul a (dot (f <$> s) x)) (dot (g <$> s) x).
Proof.
  revert x. induction s as [|j s IH]; intros [|b x]; cbn; try ring.
  rewrite IH. ring.
Qed.

Lemma dot_fmap_zero {A} (s : list A) x :
  dot ((λ _, szero) <$> s) x = szero.
Proof.
  revert x. induction s as [|j s IH]; intros [|b x]; cbn; try done.
  rewrite IH. ring.
Qed.

(** Multiplying by a product is multiplying twice. *)
Lemma dot_mm_row n rows (l : list F) x :
  Forall (λ row, length row = n) rows →
  dot ((λ j, dot l (col j rows)) <$> seq 0 n) x = dot l (matvec rows x).
Proof.
  intros Hrows. revert l. induction Hrows as [|u rows Hu _ IH]; intros l.
  - cbn. rewrite dot_nil_r.
    etrans; [|apply (dot_fmap_zero (seq 0 n) x)].
    f_equal; try (apply list_fmap_ext; intros _ j _; apply dot_nil_r).
  - destruct l as [|a l].
    + apply dot_fmap_zero.
    + etrans; [apply (dot_fmap_linear a (λ j, nth j u szero)
                        (λ j, dot l (col j rows)) (seq 0 n) x)|].
      rewrite (map_nth_seq szero n u Hu), IH. reflexivity.
Qed.

Lemma matvec_mm n a b x :
  Forall (λ row, length row = n) b →
  matvec (mm n a b) x = matvec a (matvec b x).
Proof.
  intros Hb. unfold matvec at 1 2, mm. rewrite <- list_fmap_compose.
  apply list_fmap_ext. intros _ l _. cbn. by apply dot_mm_row.
Qed.

(** Back substitution solves the upper triangular system. *)
Lemma matvec_backward rows y i pre :
  length rows = length y → length pre = i →
  Forall (λ d, d ≠ szero) (diag_from i rows) →
  matvec (upper_from i rows) (pre ++ backward rows y i) = y.
Proof.
  revert y i pre. induction rows as [|row rows IH];
    intros [|yi y] i pre Hlen Hpre Hdiag; try discriminate; cbn; [done|].
  cbn in Hdiag. apply Forall_cons in Hdiag as [Hd Hdiag']. subst i.
  set (xs := backward rows y (S (length pre))).
  set (d := nth (length pre) row szero) in *.
  set (xi := sdiv (ssub yi (dot (drop (S (length pre)) row) xs)) d).
  f_equal.
  - unfold upper_row. rewrite dot_app by (by rewrite length_replicate).
    rewrite dot_zeros_l.
    assert (Hrow : drop (length pre) row = d :: drop (S (length pre)) row).
    { destruct (decide (length pre < length row)) as [Hlt|Hge].
      - destruct (lookup_lt_is_Some_2 row (length pre) Hlt) as [e He].
        rewrite (drop_S _ _ _ He). f_equal.
        unfold d. symmetry. by apply nth_lookup_Some.
      - exfalso. apply Hd. unfold d. apply nth_overflow. lia. }
    rewrite Hrow. cbn. unfold xi. field; exact Hd.
  - rewrite (cons_middle xi), app_assoc.
    apply IH; [cbn in Hlen; lia | rewrite length_app; cbn; lia | done].
Qed.

Lemma forward_prefix rows c acc :
  ∃ rest, forward rows c acc = acc ++ rest.
Proof.
  revert c acc. induction rows as [|row rows IH]; intros [|ci c] acc; cbn;
    try (exists []; by rewrite app_nil_r).
  destruct (IH c (acc ++ [ssub ci (dot row acc)])) as [rest ->].
  eexists. by rewrite <- app_assoc.
Qed.

(** Forward substitution solves the unit lower triangular system. *)
Lemma matvec_forward n rows c acc :
  length rows = length c →
  Forall (λ row, length row = n) rows →
  length acc + length rows = n →
  matvec (unit_lower_from n (length acc) rows) (forward rows c acc) = c.
Proof.
  revert c acc. induction rows as [|row rows IH];
    intros [|ci c] acc Hlen Hrows Hn; try discriminate; cbn; [done|].
  apply Forall_cons in Hrows as [Hrow Hrows'].
  set (yi := ssub ci (dot row acc)).
  f_equal.
  - destruct (forward_prefix rows c (acc ++ [yi])) as [rest ->].
    rewrite <- app_assoc. cbn. unfold unit_lower_row.
    rewrite dot_app by (rewrite length_take; cbn in Hn; lia).
    cbn. rewrite dot_zeros_l, dot_take_l. unfold yi. ring.
  - replace (S (length acc)) with (length (acc ++ [yi]))
      by (rewrite length_app; cbn; lia).
    apply IH; [cbn in Hlen; lia | done | rewrite length_app; cbn in *; lia].
Qed.
End Exact.

(** ** Solving against the stored factors *)

Section Exact2.
Context {D F : Type} `{Scalar F}.
Hypothesis Fth : field_theory szero sone sadd smul ssub sopp sdiv sinv (@eq F).

Lemma upper_from_rows_length n i rows :
  Forall (λ row, length row = n) rows → i + length rows ≤ n →
  Forall (λ row, length row = n) (upper_from i rows).
Proof.
  intros Hrows. revert i. induction Hrows as [|row rows Hrow _ IH]; intros i Hi; cbn.
  - constructor.
  - constructor; [|apply IH; cbn in Hi; lia].
    unfold upper_row. rewrite length_app, length_replicate, length_drop.
    cbn in Hi. lia.
Qed.

(** One right-hand side: the vector computed by [getrs] solves the system
    of the factorised matrix. *)
Lemma matvec_getrs_col (op : imfreq_ops_2d D F) n c :
  populated op n → factorised op n → length c = n →
  matvec (chunks n n (a_data (cf2if op)))
         (getrs_col (chunks n n (a_data (if2cf_lu op)))
                    (a_data (if2cf_piv op)) c)
  = c.
Proof.
  intros (_ & Hn & Hcf & Hwcf & Hlu & Hwlu & _) [Hfact Hdiag] Hc.
  unfold get_cf2if, get_if2cf_lu, get_if2cf_piv, wf_array, arr_size in *.
  rewrite Hlu in Hwlu. cbn in Hwlu, Hfact, Hdiag.
  set (lu := chunks n n (a_data (if2cf_lu op))) in *.
  set (piv := a_data (if2cf_piv op)) in *.
  assert (Hlul : length lu = n) by apply length_chunks.
  assert (Hlur : Forall (λ row, length row = n) lu).
  { apply chunks_rows_length. lia. }
  unfold getrs_col.
  set (y := forward lu (laswp piv c) []).
  set (x := backward lu y 0).
  assert (Hy : length y = n).
  { unfold y, laswp. rewrite length_forward, length_laswp_from. cbn. lia. }
  apply (laswp_from_inj 0 piv).
  unfold laswp in Hfact.
  unfold matvec at 1. rewrite <- fmap_laswp_from, Hfact.
  fold (matvec (mm n (unit_lower_from n 0 lu) (upper_from 0 lu)) x).
  rewrite (matvec_mm Fth) by (apply upper_from_rows_length; [done|lia]).
  unfold x.
  change (backward lu y 0) with ([] ++ backward lu y 0).
  rewrite (matvec_backward Fth lu y 0 []) by (done || lia).
  unfold y.
  apply (matvec_forward Fth n lu (laswp piv c) []); [|done|cbn; lia].
  unfold laswp. rewrite length_laswp_from. lia.
Qed.

(** The transforms undo each other on the contents of a batched array. *)
Lemma applied_solved (op : imfreq_ops_2d D F) n k b :
  populated op n → factorised op n → length b = n * k →
  applied op n k (solved op n k b) = b.
Proof.
  intros Hop Hfact Hb.
  pose proof Hop as (_ & Hn & Hcf & Hwcf & Hlu & Hwlu & _).
  unfold get_cf2if, get_if2cf_lu in *.
  unfold applied, solved.
  set (a := chunks n n (a_data (cf2if op))).
  set (solve := getrs_col _ _).
  set (rows := chunks n k b).
  assert (Hrl : length rows = n) by apply length_chunks.
  assert (Hrr : Forall (λ row, length row = k) rows) by (by apply chunks_rows_length).
  set (xs := solve <$> cols_of k rows).
  assert (Hxs : length xs = k) by (unfold xs; by rewrite length_fmap, length_cols_of).
  assert (Hxsl : Forall (λ c, length c = n) xs).
  { unfold xs. apply Forall_fmap.
    eapply Forall_impl; [apply cols_of_cols_length|].
    intros c Hc. cbn beta in Hc. cbn. unfold solve.
    rewrite length_getrs_col; rewrite ?length_chunks; lia. }
  rewrite chunks_concat;
    [|apply length_of_cols|rewrite <- Hxs; apply of_cols_rows_length].
  etrans; [|apply (concat_chunks n k b Hb)]. fold rows. f_equal.
  rewrite <- (of_cols_cols_of n k (mm k a (of_cols n xs)))
    by (rewrite ?length_mm; unfold a; rewrite ?length_chunks; done
        || apply mm_rows_length).
  etrans; [|apply (of_cols_cols_of n k rows Hrl Hrr)].
  f_equal. unfold cols_of.
  apply list_eq. intros j. rewrite !list_lookup_fmap.
  destruct (decide (j < k)) as [Hj|Hj].
  - rewrite lookup_seq_lt by done. cbn. f_equal.
    rewrite col_mm by done.
    rewrite (col_of_cols n xs j (solve (col j rows))).
    + unfold a, solve. apply matvec_getrs_col; [done|done|].
      unfold col. by rewrite length_fmap.
    + unfold xs, cols_of. rewrite !list_lookup_fmap, lookup_seq_lt by done.
      reflexivity.
    + unfold solve. rewrite length_getrs_col; unfold col;
        rewrite ?length_fmap, ?length_chunks; lia.
  - by rewrite lookup_seq_ge by lia.
Qed.
End Exact2.

Section Solve.
Context {D F : Type} `{Scalar F}.

(** X13: in exact arithmetic and with factors that belong to [cf2if],
    [coefs2vals] after [vals2coefs] gives back the values. *)
Lemma roundtrip_exact (op : imfreq_ops_2d D F) (n : nat) (g : array F) :
  field_theory szero sone sadd smul ssub sopp sdiv sinv (@eq F) →
  populated op n → factorised op n → batched n g →
  (x ← vals2coefs op g; coefs2vals op x) = Ok g.
Proof.
  intros Fth Hop Hfact Hg.
  destruct (batched_shape n g Hg) as (Hshape & Hext & Hsize & Hlen).
  rewrite (vals2coefs_run op n g Hop Hg). cbn.
  rewrite (coefs2vals_run op n).
  - cbn. unfold batch_size at 1. cbn. fold (batch_size g).
    unfold promote, promote_same. rewrite list_fmap_id.
    rewrite (applied_solved Fth) by done. by destruct g.
  - done.
  - destruct Hg as [Hhd Hwf]. split; [done|].
    unfold wf_array, arr_size. cbn. fold (arr_size g).
    by rewrite length_solved.
Qed.

(** C2: for a ready operator and a batched array [g] of the store with
    leading length the rank, [vals2coefs] returns an array [x] of the
    shape of [g]; the only change to the store is one new array, the copy
    on which the solve ran, so [g] is as it was; reshaped to [n] rows, [x]
    is what [getrs] makes of the reshaped [g] with the stored factors and
    pivots; and, when the scalars obey the field laws and the stored
    factors are those of [cf2if], [cf2if * x = g] on the reshaped
    arrays. *)
Theorem vals2coefs_solves_on_a_copy
    (op : imfreq_ops_2d D F) (n : nat) (g : array F)
    (σ : list (array F)) (l : loc) :
  populated op n → batched n g → σ !! l = Some g →
  ∃ x : array F,
    vals2coefs_st op l σ = (Ok x, σ ++ [x])
    ∧ (σ ++ [x]) !! l = Some g
    ∧ a_shape x = a_shape g
    ∧ (g_rs ← reshape g [n; batch_size g];
       getrs (get_if2cf_lu op) g_rs (get_if2cf_piv op))
      = reshape x [n; batch_size g]
    ∧ (field_theory szero sone sadd smul ssub sopp sdiv sinv (@eq F) →
       factorised op n →
       (x_rs ← reshape x [n; batch_size g]; matmul (get_cf2if op) x_rs)
       = reshape g [n; batch_size g]).
Proof.
  intros Hop Hg Hl.
  destruct (batched_shape n g Hg) as (Hshape & Hext & Hsize & Hlen).
  eexists. split; [by apply (vals2coefs_st_run op n g σ l)|].
  split; [by apply lookup_app_l_Some|].
  split; [reflexivity|].
  pose proof Hop as (_ & Hn & Hcf & _ & Hlu & _ & Hpiv & Hwpiv & Hpok).
  unfold reshape.
  change (arr_size (mk_array (a_shape g) ?d)) with (arr_size g).
  rewrite Hsize. unfold prod_list. cbn [foldr].
  destruct (decide (n * (batch_size g * 1) = n * batch_size g)) as [_|?]; [|lia].
  split.
  - cbn. unfold getrs. cbn. rewrite Hlu.
    unfold wf_array, arr_size in Hwpiv. rewrite Hpiv in Hwpiv. cbn in Hwpiv.
    rewrite take_ge by lia.
    destruct (decide _) as [_|Hno];
      [|exfalso; apply Hno; repeat split; try done; lia].
    reflexivity.
  - intros Fth Hfact.
    cbn. unfold matmul. cbn. rewrite Hcf.
    destruct (decide (n = n)) as [_|?]; [|done].
    do 2 f_equal.
    exact (applied_solved Fth op n (batch_size g) (a_data g) Hop Hfact Hlen).
Qed.
End Solve.

Section Promotion.
Context {D R : Type} `{Scalar R}.

(** C8: for a ready operator with a complex matrix and a real-valued
    coefficient array with leading length the rank, [coefs2vals] returns a
    complex-valued array of the same shape, filled to that shape. *)
Theorem coefs2vals_real_to_complex
    (op : imfreq_ops_2d D (complex R)) (n : nat) (gc : array R) :
  populated op n → batched n gc →
  ∃ g : array (complex R),
    coefs2vals op gc = Ok g ∧ a_shape g = a_shape gc ∧ wf_array g.
Proof.
  intros Hop Hgc. eexists.
  split; [by apply (coefs2vals_run op n gc)|].
  split; [reflexivity|].
  destruct (batched_shape n gc Hgc) as (_ & _ & Hsize & _).
  unfold wf_array, arr_size in *. cbn. by rewrite length_applied.
Qed.
End Promotion.

(** ** The example operator *)

Ltac qc_eq :=
  match goal with |- ?G => apply (bool_decide_unpack G); vm_compute; exact I end.

Lemma ex_populated : populated Example.ex_op 2.
Proof.
  repeat split; try reflexivity; try lia.
  repeat constructor; lia.
Qed.

Lemma ex_factorised : factorised Example.ex_op 2.
Proof.
  split.
  - qc_eq.
  - repeat constructor; intros Heq; apply (f_equal this) in Heq; discriminate.
Qed.

Lemma ex_populated_c : populated Example.ex_op_c 2.
Proof.
  repeat split; try reflexivity; try lia.
  repeat constructor; lia.
Qed.

Lemma ex_g_batched : batched 2 Example.ex_g.
Proof. split; reflexivity. Qed.

(** C2 at the example operator: the coefficients of the example values,
    computed on a copy, solve the system of the example matrix. *)
Lemma vals2coefs_solves_on_a_copy_witness :
  ∃ x : array Qc,
    vals2coefs_st Example.ex_op 0 [Example.ex_g] = (Ok x, [Example.ex_g; x])
    ∧ a_shape x = [2; 3]
    ∧ (x_rs ← reshape x [2; 3]; matmul Example.ex_cf2if x_rs)
      = Ok Example.ex_g.
Proof.
  destruct (vals2coefs_solves_on_a_copy Example.ex_op 2 Example.ex_g
              [Example.ex_g] 0 ex_populated ex_g_batched eq_refl)
    as (x & Hrun & _ & Hshape & _ & Hsol).
  exists x. split; [exact Hrun|]. split; [exact Hshape|].
  exact (Hsol Qcft ex_factorised).
Defined.

(** C7 at the example operator, second column of the example values. *)
Lemma transforms_act_on_each_column_witness :
  (∃ x, vals2coefs Example.ex_op Example.ex_g = Ok x
        ∧ vals2coefs Example.ex_op (column 1 Example.ex_g) = Ok (column 1 x))
  ∧ (∃ v, coefs2vals Example.ex_op Example.ex_g = Ok v
          ∧ coefs2vals Example.ex_op (column 1 Example.ex_g) = Ok (column 1 v)).
Proof.
  apply (transforms_act_on_each_column (S := Qc) Example.ex_op 2).
  - exact ex_populated.
  - exact ex_g_batched.
  - exact ex_g_batched.
  - vm_compute. lia.
  - vm_compute. lia.
Defined.

(** C8 at the complex example operator and real coefficients. *)
Lemma coefs2vals_real_to_complex_witness :
  ∃ g : array (complex Qc),
    coefs2vals Example.ex_op_c Example.ex_g = Ok g
    ∧ a_shape g = [2; 3] ∧ wf_array g.
Proof.
  apply (coefs2vals_real_to_complex Example.ex_op_c 2 Example.ex_g).
  - exact ex_populated_c.
  - exact ex_g_batched.
Defined.

(** The transforms on the example values: the coefficients are
    [[7/2, 4, 9/2], [1/2, 1, 3/2]], and their values are the example
    values again. *)
Example ex_vals2coefs :
  vals2coefs Example.ex_op Example.ex_g
  = Ok (mk_array [2; 3]
          [Q2Qc (7 # 2); Example.q 4; Q2Qc (9 # 2);
           Q2Qc (1 # 2); Example.q 1; Q2Qc (3 # 2)]).
Proof.
  rewrite (vals2coefs_run Example.ex_op 2 Example.ex_g ex_populated ex_g_batched).
  do 2 f_equal. qc_eq.
Qed.

Example ex_coefs2vals :
  coefs2vals Example.ex_op
    (mk_array [2; 3]
       [Q2Qc (7 # 2); Example.q 4; Q2Qc (9 # 2);
        Q2Qc (1 # 2); Example.q 1; Q2Qc (3 # 2)])
  = Ok Example.ex_g.
Proof.
  rewrite (coefs2vals_run Example.ex_op 2); [|exact ex_populated|split; reflexivity].
  unfold Example.ex_g. do 2 f_equal. qc_eq.
Qed.

(** The example operator left by the computing constructor has one node and
    rank 2. *)
Example ex_built_rank :
  rank Example.ex_built = Some 2%Z
  ∧ extent (get_ifnodes Example.ex_built) 0 = 1.
Proof. split; reflexivity. Qed.

(** The factorisation of the example matrix is the one the example operator
    was rebuilt from, so the operator left by the computing constructor is
    ready and its factors belong to its matrix. *)
Example ex_getrf_factors :
  Example.ex_getrf Example.ex_cf2if (vector_int 2)
  = (Example.ex_lu, Example.ex_piv).
Proof.
  vm_compute. reflexivity.
Qed.

Example ex_built_ready :
  populated Example.ex_built 2 ∧ factorised Example.ex_built 2.
Proof.
  assert (Hlu : get_if2cf_lu Example.ex_built = Example.ex_lu
                ∧ get_if2cf_piv Example.ex_built = Example.ex_piv
                ∧ get_cf2if Example.ex_built = Example.ex_cf2if
                ∧ rank Example.ex_built = Some 2%Z).
  { unfold Example.ex_built, imfreq_ops_2d_build.
    change (int_of_long _) with 2%Z.
    unfold Example.ex_build_cf2if. rewrite ex_getrf_factors.
    repeat split. }
  destruct Hlu as (Hlu & Hpiv & Hcf & Hr).
  pose proof ex_populated as (_ & Hp).
  pose proof ex_factorised as Hf.
  unfold populated, factorised in *.
  rewrite Hlu, Hpiv, Hcf, Hr. split; [split; [reflexivity|exact Hp]|exact Hf].
Qed.

(** ** The other direction of the exact round trip *)

Section ExactInverse.
Context {D F : Type} `{Scalar F}.
Hypothesis Fth : field_theory szero sone sadd smul ssub sopp sdiv sinv (@eq F).
Add Field Ffi : Fth.

(** Forward substitution undoes the product with the unit lower triangle. *)
Lemma forward_matvec n (rows : list (list F)) (acc rest : list F) :
  Forall (λ row, length row = n) rows →
  length acc + length rows = n →
  length rest = length rows →
  forward rows (matvec (unit_lower_from n (length acc) rows) (acc ++ rest)) acc
  = acc ++ rest.
Proof.
  revert acc rest. induction rows as [|row rows IH];
    intros acc [|y rest] Hrows Hn Hrest; try discriminate; cbn;
    [by rewrite app_nil_r|].
  apply Forall_cons in Hrows as [Hrow Hrows'].
  unfold unit_lower_row at 1.
  rewrite (dot_app Fth) by (rewrite length_take; cbn in Hn; lia).
  cbn. rewrite (dot_zeros_l Fth), (dot_take_l row acc).
  replace (ssub (sadd (dot row acc) (sadd (smul sone y) szero)) (dot row acc))
    with y by ring.
  rewrite (cons_middle y acc rest), app_assoc.
  replace (S (length acc)) with (length (acc ++ [y]))
    by (rewrite length_app; cbn; lia).
  apply IH; [done | rewrite length_app; cbn in *; lia | cbn in Hrest; lia].
Qed.

(** Back substitution undoes the product with the upper triangle. *)
Lemma backward_matvec (rows : list (list F)) i (pre xs : list F) :
  length pre = i →
  length xs = length rows →
  Forall (λ d, d ≠ szero) (diag_from i rows) →
  backward rows (matvec (upper_from i rows) (pre ++ xs)) i = xs.
Proof.
  revert i pre xs. induction rows as [|row rows IH];
    intros i pre [|x xs] Hpre Hxs Hdiag; try discriminate; cbn; [done|].
  cbn in Hdiag. apply Forall_cons in Hdiag as [Hd Hdiag']. subst i.
  set (d := nth (length pre) row szero) in *.
  fold (matvec (upper_from (S (length pre)) rows) (pre ++ x :: xs)).
  assert (Hxs' : backward rows
                   (matvec (upper_from (S (length pre)) rows) (pre ++ x :: xs))
                   (S (length pre)) = xs).
  { rewrite (cons_middle x pre xs), app_assoc.
    apply IH; [rewrite length_app; cbn; lia | cbn in Hxs; lia | done]. }
  rewrite Hxs'. f_equal.
  unfold upper_row. rewrite (dot_app Fth) by (by rewrite length_replicate).
  rewrite (dot_zeros_l Fth).
  assert (Hrow : drop (length pre) row = d :: drop (S (length pre)) row).
  { destruct (decide (length pre < length row)) as [Hlt|Hge].
    - destruct (lookup_lt_is_Some_2 row (length pre) Hlt) as [e He].
      rewrite (drop_S _ _ _ He). f_equal.
      unfold d. symmetry. by apply nth_lookup_Some.
    - exfalso. apply Hd. unfold d. apply nth_overflow. lia. }
  rewrite Hrow. cbn. field; exact Hd.
Qed.

Lemma length_upper_from i (rows : list (list F)) :
  length (upper_from i rows) = length rows.
Proof. revert i. induction rows as [|row rows IH]; intros i; cbn; [done|]. by rewrite IH. Qed.

(** One right-hand side: [getrs] recovers the vector the factorised matrix
    was applied to. *)
Lemma getrs_col_matvec (op : imfreq_ops_2d D F) n (x : list F) :
  populated op n → factorised op n → length x = n →
  getrs_col (chunks n n (a_data (if2cf_lu op))) (a_data (if2cf_piv op))
            (matvec (chunks n n (a_data (cf2if op))) x)
  = x.
Proof.
  intros (_ & Hn & Hcf & Hwcf & Hlu & Hwlu & _) [Hfact Hdiag] Hx.
  unfold get_cf2if, get_if2cf_lu, get_if2cf_piv, wf_array, arr_size in *.
  rewrite Hlu in Hwlu. cbn in Hwlu, Hfact, Hdiag.
  set (lu := chunks n n (a_data (if2cf_lu op))) in *.
  set (piv := a_data (if2cf_piv op)) in *.
  assert (Hlul : length lu = n) by apply length_chunks.
  assert (Hlur : Forall (λ row, length row = n) lu).
  { apply chunks_rows_length. lia. }
  unfold getrs_col, laswp in *.
  unfold matvec at 1. rewrite <- fmap_laswp_from, Hfact.
  fold (matvec (mm n (unit_lower_from n 0 lu) (upper_from 0 lu)) x).
  rewrite (matvec_mm Fth) by (apply upper_from_rows_length; [done|lia]).
  pose proof (forward_matvec n lu [] (matvec (upper_from 0 lu) x)) as Hf.
  cbn in Hf. rewrite Hf; [|done|lia|].
  - apply (backward_matvec lu 0 [] x); [done|lia|done].
  - unfold matvec. by rewrite length_fmap, length_upper_from.
Qed.

(** The transforms undo each other on the contents of a batched array, in
    the other order. *)
Lemma solved_applied (op : imfreq_ops_2d D F) n k (x : list F) :
  populated op n → factorised op n → length x = n * k →
  solved op n k (applied op n k x) = x.
Proof.
  intros Hop Hfact Hx.
  unfold applied, solved.
  set (a := chunks n n (a_data (cf2if op))).
  set (solve := getrs_col _ _).
  set (rows := chunks n k x).
  assert (Hrl : length rows = n) by apply length_chunks.
  assert (Hrr : Forall (λ row, length row = k) rows) by (by apply chunks_rows_length).
  rewrite chunks_concat;
    [|rewrite length_mm; unfold a; apply length_chunks|apply mm_rows_length].
  etrans; [|apply (concat_chunks n k x Hx)]. fold rows. f_equal.
  etrans; [|apply (of_cols_cols_of n k rows Hrl Hrr)].
  f_equal. unfold cols_of. rewrite <- list_fmap_compose.
  apply list_fmap_ext. intros i j Hj. cbn.
  apply lookup_seq in Hj as [-> Hj]. cbn.
  rewrite col_mm by done. unfold a, solve.
  apply getrs_col_matvec; [done|done|].
  unfold col. by rewrite length_fmap.
Qed.

End ExactInverse.

Section MoreExact.
Context {D F : Type} `{Scalar F}.

(** X14: in exact arithmetic and with factors that belong to [cf2if],
    [vals2coefs] after [coefs2vals] gives back the coefficients. *)
Theorem roundtrip_exact_coefs (op : imfreq_ops_2d D F) (n : nat) (gc : array F) :
  field_theory szero sone sadd smul ssub sopp sdiv sinv (@eq F) →
  populated op n → factorised op n → batched n gc →
  (v ← coefs2vals op gc; vals2coefs op v) = Ok gc.
Proof.
  intros Fth Hop Hfact Hg.
  destruct (batched_shape n gc Hg) as (Hshape & Hext & Hsize & Hlen).
  rewrite (coefs2vals_run op n gc Hop Hg). cbn.
  rewrite (vals2coefs_run op n).
  - cbn. unfold batch_size at 1. cbn. fold (batch_size gc).
    unfold promote, promote_same. rewrite list_fmap_id.
    rewrite (solved_applied Fth) by done. by destruct gc.
  - done.
  - destruct Hg as [Hhd Hwf]. split; [done|].
    unfold wf_array, arr_size. cbn. fold (arr_size gc).
    by rewrite length_applied.
Qed.
End MoreExact.

(** ** Persistence, in general *)

Section MorePersistence.
Context {D F : Type} `{Scalar F}.

Lemma h5_read_inv (fg : gmap string (h5_group D F)) name
    (m : imfreq_ops_2d D F) log op log' :
  h5_read fg name m log = (Ok op, log') →
  ∃ gr lam e rf nodes cf lu piv,
    fg !! name = Some gr
    ∧ (h5_attr_format gr = None ∨ h5_attr_format gr = Some hdf5_format)
    ∧ h5_datasets gr !! "lambda" = Some (h5_double lam)
    ∧ h5_datasets gr !! "eps" = Some (h5_double e)
    ∧ h5_datasets gr !! "rf" = Some (h5_doubles rf)
    ∧ h5_datasets gr !! "if" = Some (h5_ints nodes)
    ∧ h5_datasets gr !! "cf2if" = Some (h5_matrix cf)
    ∧ h5_datasets gr !! "if2cf_lu" = Some (h5_matrix lu)
    ∧ h5_datasets gr !! "if2cf_piv" = Some (h5_ints piv)
    ∧ op = imfreq_ops_2d_from_fields lam e rf nodes cf lu piv
    ∧ log' = log ++ ["lambda"; "eps"; "rf"; "if"; "cf2if"; "if2cf_lu";
                     "if2cf_piv"].
Proof.
  unfold h5_read, open_group, m_bind. intros Hread.
  destruct (fg !! name) as [gr|] eqn:Hgr; [|discriminate].
  cbn in Hread.
  assert (Htag : h5_attr_format gr = None
                 ∨ h5_attr_format gr = Some hdf5_format).
  { unfold assert_hdf5_format_as_string in Hread.
    destruct (h5_attr_format gr) as [tag|]; [|by left].
    destruct (decide (tag = "cppdlr::imfreq_ops")) as [->|]; [by right|discriminate]. }
  assert (Hskip : assert_hdf5_format_as_string gr "cppdlr::imfreq_ops" true log
                  = (Ok (), log)).
  { unfold assert_hdf5_format_as_string.
    destruct Htag as [->| ->]; [done|].
    unfold hdf5_format. by destruct (decide _). }
  rewrite Hskip in Hread. clear Hskip.
  unfold h5_get, m_ret in Hread.
  repeat match type of Hread with
         | context [h5_datasets gr !! ?k] =>
             destruct (h5_datasets gr !! k) as [[]|] eqn:?; cbn in Hread;
             try discriminate
         end.
  injection Hread as <- <-.
  do 8 eexists. repeat split; try eassumption.
  by repeat rewrite <- app_assoc.
Qed.
End MorePersistence.


Section Persist2.
Context {D F : Type} `{Scalar F}.

(** X1: an operator whose cutoff and tolerance are initialised is written by
    [h5_write] and read back by [h5_read], which reads the seven fields in
    the order lambda, eps, rf, if, cf2if, if2cf_lu, if2cf_piv; the operator
    read back has the same cutoff and the same five arrays, its rank is the
    number of columns of the stored [cf2if] narrowed to [int], and its
    tolerance is uninitialised. *)
Theorem h5_write_then_read
    (fg : gmap string (h5_group D F)) (name : string)
    (op m : imfreq_ops_2d D F) (lam e : D) (log : list string) :
  lambda op = Some lam →
  eps op = Some e →
  ∃ fg' op',
    h5_write fg name op = Ok fg'
    ∧ h5_read fg' name m log
      = (Ok op', log ++ ["lambda"; "eps"; "rf"; "if"; "cf2if"; "if2cf_lu";
                         "if2cf_piv"])
    ∧ lambda op' = Some lam
    ∧ get_rfnodes op' = get_rfnodes op
    ∧ get_ifnodes op' = get_ifnodes op
    ∧ get_cf2if op' = get_cf2if op
    ∧ get_if2cf_lu op' = get_if2cf_lu op
    ∧ get_if2cf_piv op' = get_if2cf_piv op
    ∧ rank op' = Some (int_of_long (Z.of_nat (extent (get_cf2if op) 1)))
    ∧ eps op' = None.
Proof.
  intros Hlam Heps.
  destruct (h5_read_after_write fg name op m lam e log Hlam Heps)
    as (fg' & Hw & Hr).
  exists fg'. eexists. split; [exact Hw|]. split; [exact Hr|].
  repeat split.
Qed.


(** X3: whatever the file holds, when [h5_read] returns an operator it has
    read exactly the seven fields in order, the operator's arrays are the
    stored ones, its rank is the number of columns of the stored [cf2if]
    narrowed to [int] (no stored rank is consulted), and its tolerance is
    uninitialised. *)
Theorem h5_read_result
    (fg : gmap string (h5_group D F)) (name : string)
    (m op : imfreq_ops_2d D F) (log log' : list string) :
  h5_read fg name m log = (Ok op, log') →
  log' = log ++ ["lambda"; "eps"; "rf"; "if"; "cf2if"; "if2cf_lu"; "if2cf_piv"]
  ∧ eps op = None
  ∧ rank op = Some (int_of_long (Z.of_nat (extent (get_cf2if op) 1)))
  ∧ ∃ gr, fg !! name = Some gr
          ∧ h5_datasets gr !! "rf" = Some (h5_doubles (get_rfnodes op))
          ∧ h5_datasets gr !! "if" = Some (h5_ints (get_ifnodes op))
          ∧ h5_datasets gr !! "cf2if" = Some (h5_matrix (get_cf2if op))
          ∧ h5_datasets gr !! "if2cf_lu" = Some (h5_matrix (get_if2cf_lu op))
          ∧ h5_datasets gr !! "if2cf_piv" = Some (h5_ints (get_if2cf_piv op)).
Proof.
  intros Hread.
  destruct (h5_read_inv fg name m log op log' Hread)
    as (gr & lam & e & rf & nodes & cf & lu & piv & Hgr & _ & _ & _
        & Hrf & Hif & Hcf & Hlu & Hpiv & -> & ->).
  repeat split. exists gr. done.
Qed.

(** X5: [serialize] appends seven items to the archive when cutoff and rank
    are initialised, and [deserialize] on an archive that starts with those
    items consumes exactly them and restores cutoff, rank and the five
    arrays; the tolerance of the result is that of the target, so the
    result is the original exactly when the two tolerances agree. *)
Theorem serialize_then_deserialize
    (op m : imfreq_ops_2d D F) (lam : D) (rk : Z) (ar0 ar : list (ar_item D F)) :
  lambda_ op = Some lam →
  r op = Some rk →
  ∃ items op',
    serialize op ar0 = Ok (ar0 ++ items)
    ∧ length items = 7
    ∧ deserialize m (items ++ ar) = Ok (op', ar)
    ∧ lambda op' = lambda op ∧ rank op' = rank op
    ∧ get_rfnodes op' = get_rfnodes op ∧ get_ifnodes op' = get_ifnodes op
    ∧ get_cf2if op' = get_cf2if op ∧ get_if2cf_lu op' = get_if2cf_lu op
    ∧ get_if2cf_piv op' = get_if2cf_piv op
    ∧ eps op' = eps m
    ∧ (eps m = eps op → op' = op).
Proof.
  intros Hlam Hr. unfold serialize. rewrite Hlam, Hr. cbn.
  do 2 eexists. split; [reflexivity|]. split; [reflexivity|].
  split; [reflexivity|]. unfold lambda, rank, eps. cbn.
  repeat split; try done.
  intros Heps. destruct op; cbn in *. by subst.
Qed.

(** X6: the operator deserialized from what [serialize] wrote behaves like
    the original in both transforms on every input, whatever its rank is
    (the rank is stored, not recomputed), and is ready, with factors that
    belong to its matrix, whenever the original is. *)
Theorem deserialize_keeps_transforms
    (op m : imfreq_ops_2d D F) (lam : D) (rk : Z) (ar : list (ar_item D F)) :
  lambda_ op = Some lam →
  r op = Some rk →
  ∃ items op',
    serialize op [] = Ok items
    ∧ deserialize m (items ++ ar) = Ok (op', ar)
    ∧ (∀ l σ, vals2coefs_st op' l σ = vals2coefs_st op l σ)
    ∧ (∀ (S : Type) (P : Promote S F) (gc : array S),
         coefs2vals op' gc = coefs2vals op gc)
    ∧ (∀ n, populated op n → populated op' n)
    ∧ (∀ n, factorised op n → factorised op' n).
Proof.
  intros Hlam Hr.
  destruct (deserialize_after_serialize op m lam rk ar Hlam Hr)
    as (items & Hs & Hd).
  exists items. eexists. split; [exact Hs|]. split; [exact Hd|].
  set (op' := mk_ops _ _ _ _ _ _ _ _).
  assert (Hr' : r op' = r op) by (by rewrite Hr).
  destruct (transforms_read_four_members op' op Hr' eq_refl eq_refl eq_refl)
    as (Hst & _ & Hcv).
  split; [exact Hst|]. split; [exact Hcv|].
  split; intros n Hn; exact Hn || (unfold populated, rank in *; by rewrite Hr').
Qed.
End Persist2.

(** ** The transforms on arbitrary operators *)

Section Anywhere.
Context {D F : Type} `{Scalar F}.

Lemma getrs_ok (lu b : array F) (piv : array Z) (x : array F) :
  getrs lu b piv = Ok x →
  ∃ n k, a_shape lu = [n; n] ∧ a_shape b = [n; k] ∧ a_shape x = [n; k]
         ∧ length (a_data x) = n * k.
Proof.
  unfold getrs. intros Hx.
  destruct (a_shape lu) as [|n [|n' [|? ?]]]; try discriminate.
  destruct (a_shape b) as [|nb [|k [|? ?]]]; try discriminate.
  destruct (decide _) as [(<- & -> & _)|]; [|discriminate].
  injection Hx as <-. exists n, k. repeat split. cbn.
  rewrite (length_concat_rect k).
  - by rewrite length_of_cols.
  - eapply Forall_impl; [apply of_cols_rows_length|].
    intros row Hrow. cbn in Hrow. by rewrite Hrow, length_fmap, length_cols_of.
Qed.

Lemma getrs_not_throw (lu b : array F) (piv : array Z) e :
  getrs lu b piv ≠ Throw e.
Proof.
  unfold getrs.
  destruct (a_shape lu) as [|n [|n' [|? ?]]]; try discriminate.
  destruct (a_shape b) as [|nb [|k [|? ?]]]; try discriminate.
  by destruct (decide _).
Qed.

Lemma shape_of_positive_extent {A} (g : array A) n :
  extent g 0 = n → 0 < n → a_shape g = n :: tail (a_shape g).
Proof.
  unfold extent. destruct (a_shape g); cbn; intros; [lia|by subst].
Qed.

(** Every way a call of [vals2coefs] can end. *)
Lemma vals2coefs_st_inv (op : imfreq_ops_2d D F) l σ o σ' :
  vals2coefs_st op l σ = (o, σ') →
  (σ' = σ ∧ ∀ x, o ≠ Ok x)
  ∨ (∃ g, σ !! l = Some g ∧ σ' = σ ++ [g] ∧ o = Undef)
  ∨ (∃ g x n, σ !! l = Some g ∧ r op = Some (Z.of_nat n) ∧ extent g 0 = n
              ∧ 0 < n ∧ a_shape (if2cf_lu op) = [n; n]
              ∧ o = Ok x ∧ σ' = σ ++ [x]
              ∧ a_shape x = a_shape g ∧ wf_array x).
Proof.
  unfold vals2coefs_st, m_bind, load, m_lift. intros Hrun.
  destruct (σ !! l) as [g|] eqn:Hl;
    [|left; injection Hrun as <- <-; by split].
  destruct (r op) as [rk|] eqn:Hr; cbn in Hrun;
    [|left; injection Hrun as <- <-; by split].
  destruct (decide (rk ≠ Z.of_nat (extent g 0))) as [Hne|Heq];
    [left; injection Hrun as <- <-; by split|].
  assert (rk = Z.of_nat (extent g 0)) as -> by (destruct (decide (rk = Z.of_nat (extent g 0))); [done|contradiction]).
  clear Heq. unfold alloc in Hrun.
  destruct (decide (Z.of_nat (extent g 0) = 0%Z)) as [Hz|Hnz];
    [right; left; injection Hrun as <- <-; by exists g|].
  set (n := extent g 0) in *.
  assert (Hn : 0 < n) by lia.
  pose proof (shape_of_positive_extent g n eq_refl Hn) as Hshape.
  unfold reshape_view, m_bind, load, m_ret, m_lift in Hrun.
  rewrite lookup_app_r, Nat.sub_diag in Hrun by done. cbn in Hrun.
  rewrite Nat2Z.id in Hrun.
  set (k := Z.to_nat (Z.of_nat (arr_size g) ÷ Z.of_nat n)) in *.
  destruct (decide (n * (k * 1) = arr_size g)) as [Hk|];
    [|right; left; injection Hrun as <- <-; by exists g].
  unfold getrs_inplace, m_bind, load, m_lift in Hrun. cbn in Hrun.
  rewrite lookup_app_r, Nat.sub_diag in Hrun by done. cbn in Hrun.
  destruct (getrs _ _ _) as [x|e|] eqn:Hx.
  - destruct (getrs_ok _ _ _ _ Hx) as (n' & k' & Hlu & Hb & Hxs & Hxl).
    cbn in Hb. injection Hb as <- <-.
    unfold write in Hrun. rewrite length_app in Hrun. cbn in Hrun.
    destruct (decide _) as [_|?]; [|lia].
    rewrite insert_app_r_alt, Nat.sub_diag in Hrun by done. cbn in Hrun.
    rewrite lookup_app_r, Nat.sub_diag in Hrun by done. cbn in Hrun.
    injection Hrun as <- <-.
    right; right. exists g. eexists. exists n.
    assert (Hprod : prod_list (tail (a_shape g)) = k).
    { unfold arr_size, prod_list in Hk |- *. rewrite Hshape in Hk.
      cbn in Hk. nia. }
    unfold slice_leading. cbn. rewrite Hprod, take_ge by lia.
    rewrite <- Hshape.
    repeat split; try done.
    unfold wf_array, arr_size, prod_list in Hk |- *. cbn [a_data a_shape].
    rewrite Hxl. lia.
  - by apply getrs_not_throw in Hx.
  - right; left. injection Hrun as <- <-. by exists g.
Qed.


(** X8: whenever [vals2coefs] returns an array, the rank is positive and
    equal to the leading extent of the argument, the stored factors are
    square of that order, the result has the shape of the argument and
    fills it, and the store has grown by that one array. *)
Theorem vals2coefs_st_returns (op : imfreq_ops_2d D F) (l : loc)
    (σ σ' : list (array F)) (x : array F) :
  vals2coefs_st op l σ = (Ok x, σ') →
  ∃ g, σ !! l = Some g
       ∧ rank op = Some (Z.of_nat (extent g 0))
       ∧ 0 < extent g 0
       ∧ a_shape (get_if2cf_lu op) = [extent g 0; extent g 0]
       ∧ a_shape x = a_shape g
       ∧ wf_array x
       ∧ σ' = σ ++ [x].
Proof.
  intros Hrun.
  destruct (vals2coefs_st_inv op l σ _ σ' Hrun)
    as [[_ Hno]|[(g & _ & _ & ?)|(g & x' & n & Hl & Hr & Hn & Hpos & Hlu & Hx & -> & Hs & Hw)]].
  - by destruct (Hno x).
  - discriminate.
  - injection Hx as <-. exists g. subst n. done.
Qed.

(** X9: whenever [coefs2vals] returns an array, the rank is positive and
    equal to the leading extent of the argument and to the number of
    columns of [cf2if], and the result has the shape of the argument and
    fills it. *)
Theorem coefs2vals_returns {S : Type} `{Promote S F}
    (op : imfreq_ops_2d D F) (gc : array S) (g : array F) :
  coefs2vals op gc = Ok g →
  rank op = Some (Z.of_nat (extent gc 0))
  ∧ 0 < extent gc 0
  ∧ extent (get_cf2if op) 1 = extent gc 0
  ∧ a_shape g = a_shape gc
  ∧ wf_array g.
Proof.
  unfold coefs2vals, rank, get_cf2if. intros Hrun.
  destruct (r op) as [rk|]; [|discriminate]. cbn in Hrun.
  destruct (decide (rk ≠ Z.of_nat (extent gc 0))) as [|Heq]; [discriminate|].
  assert (rk = Z.of_nat (extent gc 0)) as ->
    by (destruct (decide (rk = Z.of_nat (extent gc 0))); [done|contradiction]).
  destruct (decide (Z.of_nat (extent gc 0) = 0%Z)) as [|Hnz]; [discriminate|].
  set (n := extent gc 0) in *. assert (Hn : 0 < n) by lia.
  pose proof (shape_of_positive_extent gc n eq_refl Hn) as Hshape.
  unfold reshape in Hrun. rewrite Nat2Z.id in Hrun.
  set (k := Z.to_nat (Z.of_nat (arr_size gc) ÷ Z.of_nat n)) in *.
  destruct (decide (prod_list [n; k] = arr_size gc)) as [Hk|]; [|discriminate].
  cbn in Hrun. unfold matmul in Hrun. cbn in Hrun.
  destruct (a_shape (cf2if op)) as [|m [|k' [|? ?]]] eqn:Hcf; try discriminate.
  destruct (decide (k' = n)) as [->|]; [|discriminate].
  cbn in Hrun. unfold arr_size in Hrun. cbn in Hrun.
  destruct (decide _) as [Hout|]; [|discriminate].
  injection Hrun as <-. cbn.
  repeat split; try done.
  - unfold extent. by rewrite Hcf.
  - unfold wf_array, arr_size. cbn.
    rewrite (length_concat_rect k) by apply mm_rows_length.
    rewrite length_mm, length_chunks. lia.
Qed.

(** X10: with rank zero and an argument of leading extent zero, the shape
    check passes and [g.size() / r] divides by zero: [vals2coefs] (after
    it has made its copy), [coefs2vals] and the matrix-valued branch of
    [coefs2eval] have undefined behaviour; the scalar branch of
    [coefs2eval], which does not divide, returns zero. *)
Theorem transforms_divide_by_rank {S : Type} `{Promote S F}
    (op : imfreq_ops_2d D F) (g : array F) (gc : array S)
    (σ : list (array F)) (l : loc) (i j : Z) :
  rank op = Some 0%Z →
  σ !! l = Some g →
  extent g 0 = 0 →
  extent gc 0 = 0 →
  vals2coefs_st op l σ = (Undef, σ ++ [g])
  ∧ coefs2vals op gc = Undef
  ∧ (arr_rank gc ≠ 1 → coefs2eval op gc i j = Undef)
  ∧ (arr_rank gc = 1 → coefs2eval op gc i j = Ok (EvalScalar szero)).
Proof.
  unfold rank. intros Hr Hl Hg Hgc. repeat split.
  - unfold vals2coefs_st, m_bind, load, m_lift. rewrite Hl, Hr, Hg. cbn.
    destruct (decide _) as [?|_]; [done|]. reflexivity.
  - unfold coefs2vals. rewrite Hr, Hgc. cbn.
    destruct (decide _) as [?|_]; [done|]. reflexivity.
  - intros Hrank. unfold coefs2eval. rewrite Hr, Hgc. cbn.
    destruct (decide _) as [?|_]; [done|].
    destruct (decide _) as [?|_]; [done|]. reflexivity.
  - intros Hrank. unfold coefs2eval. rewrite Hr, Hgc. cbn.
    destruct (decide _) as [?|_]; [done|].
    destruct (decide _) as [_|?]; [|done]. reflexivity.
Qed.

(** X11: [coefs2eval] throws its runtime error whenever the leading extent
    of the coefficients differs from the rank, whatever their rank and
    whatever the pair of indices. *)
Theorem coefs2eval_rejects_wrong_leading_extent {S : Type}
    (op : imfreq_ops_2d D F) (n : Z) (gc : array S) (i j : Z) :
  rank op = Some n →
  n ≠ Z.of_nat (extent gc 0) →
  coefs2eval op gc i j = Throw (runtime_error "First dim of g != DLR rank r.").
Proof.
  unfold rank. intros Hr Hne. unfold coefs2eval. rewrite Hr. cbn.
  destruct (decide _) as [_|?]; [reflexivity|contradiction].
Qed.

(** X12: on coefficients of rank other than one with the right leading
    extent, [coefs2eval] reshapes an empty matrix to the batch shape: it
    returns an array without elements when the batch is empty, and
    violates the precondition of the reshape for every other batch. *)
Theorem coefs2eval_batched_is_placeholder {S : Type}
    (op : imfreq_ops_2d D F) (n : nat) (gc : array S) (i j : Z) :
  rank op = Some (Z.of_nat n) →
  0 < n →
  batched n gc →
  arr_rank gc ≠ 1 →
  coefs2eval op gc i j
  = if decide (batch_size gc = 0)
    then Ok (EvalArray (mk_array (tail (a_shape gc)) []))
    else Undef.
Proof.
  unfold rank. intros Hr Hn Hgc Hrank.
  destruct (batched_shape n gc Hgc) as (Hshape & Hext & Hsize & Hlen).
  unfold coefs2eval. rewrite Hr, Hext. cbn.
  destruct (decide _) as [?|_]; [done|].
  destruct (decide _) as [?|_]; [done|].
  destruct (decide _) as [?|_]; [lia|].
  unfold reshape. rewrite Hsize, batch_quotient, Nat2Z.id by done.
  destruct (decide (prod_list [n; batch_size gc] = n * batch_size gc))
    as [_|Hno]; [|exfalso; apply Hno; unfold prod_list; cbn; lia].
  cbn. unfold arr_size. cbn. fold (batch_size gc).
  destruct (decide (batch_size gc = 0)) as [Hz|Hz];
    destruct (decide (batch_size gc = 0 * (0 * 1))) as [Hd|Hd];
    try reflexivity; lia.
Qed.
End Anywhere.

(** ** Indexed accessors and the driver *)

Section Accessors.
Context {D F : Type}.

Lemma at2_in_range {A : Type} (a : array A) (n k : nat) (i j : Z) (d : A) :
  a_shape a = [n; k] → length (a_data a) = n * k →
  at2 a i j
  = if decide ((0 <= i < Z.of_nat n)%Z ∧ (0 <= j < Z.of_nat k)%Z)
    then Ok (nth (Z.to_nat i * k + Z.to_nat j) (a_data a) d)
    else Undef.
Proof.
  intros Hshape Hlen. unfold at2, extent. rewrite Hshape. cbn [nth].
  destruct (decide _) as [[Hi Hj]|_]; [|reflexivity].
  destruct (lookup_lt_is_Some_2 (a_data a) (Z.to_nat i * k + Z.to_nat j))
    as [x Hx]; [nia|].
  rewrite Hx. f_equal. symmetry. by apply nth_lookup_Some.
Qed.

(** X16: with [n_if] node pairs stored one per row and [n_rf] real
    frequencies, [get_ifnodes(i)] returns the two entries of row [i] of the
    array that [get_ifnodes()] returns and [get_rfnodes(i)] entry [i] of the
    array that [get_rfnodes()] returns, for [i] within the extent; outside
    it the access is out of bounds. *)
Theorem indexed_accessors_read_rows
    (op : imfreq_ops_2d D F) (n_if n_rf : nat) (i : Z) (d : D) :
  a_shape (get_ifnodes op) = [n_if; 2] → wf_array (get_ifnodes op) →
  a_shape (get_rfnodes op) = [n_rf] → wf_array (get_rfnodes op) →
  get_ifnodes_at op i
  = (if decide (0 <= i < Z.of_nat n_if)%Z
     then Ok (nth (2 * Z.to_nat i) (a_data (get_ifnodes op)) 0%Z,
              nth (2 * Z.to_nat i + 1) (a_data (get_ifnodes op)) 0%Z)
     else Undef)
  ∧ get_rfnodes_at op i
    = (if decide (0 <= i < Z.of_nat n_rf)%Z
       then Ok (nth (Z.to_nat i) (a_data (get_rfnodes op)) d)
       else Undef).
Proof.
  unfold get_ifnodes, get_rfnodes, wf_array, arr_size.
  intros Hif Hwif Hrf Hwrf. rewrite Hif in Hwif. rewrite Hrf in Hwrf.
  cbn in Hwif, Hwrf. split.
  - unfold get_ifnodes_at.
    rewrite !(at2_in_range (dlr2d_if op) n_if 2 i _ 0%Z Hif Hwif).
    destruct (decide (0 <= i < Z.of_nat n_if)%Z) as [Hi|Hi].
    + destruct (decide _) as [_|Hno]; [|exfalso; apply Hno; lia].
      destruct (decide _) as [_|Hno]; [|exfalso; apply Hno; lia].
      cbn. do 3 f_equal; lia.
    + repeat (destruct (decide _) as [[Hyes _]|_]; [contradiction|]).
      reflexivity.
  - unfold get_rfnodes_at, at1, extent. rewrite Hrf. cbn [nth].
    destruct (decide (0 <= i < Z.of_nat n_rf)%Z) as [Hi|Hi]; [|reflexivity].
    destruct (lookup_lt_is_Some_2 (a_data (dlr_rf op)) (Z.to_nat i))
      as [a Ha]; [lia|].
    rewrite Ha. f_equal. symmetry. by apply nth_lookup_Some.
Qed.
End Accessors.

Section DriverFacts.
Context {D F : Type} `{Scalar F}.
Variable build_dlr2d_if : D → D → array Z.
Variable build_dlr_rf : D → D → bool → array D.
Variable build_cf2if : D → array D → array Z → array F.
Variable getrf : array F → array Z → array F * array Z.
Variable lit_10 lit_1e_5 : D.

(** X17: the driver program prints the total number of entries of the node
    array (narrowed to [int]) as the rank, and the operator it reads back
    has the cutoff and the five arrays of the operator it computed, a rank
    recomputed from the columns of [cf2if], and an uninitialised tolerance
    where the computed operator holds [1e-5]. *)
Theorem main_reads_back_all_but_the_tolerance :
  ∃ ifops ifops_ref,
    main build_dlr2d_if build_dlr_rf build_cf2if getrf lit_10 lit_1e_5
    = Ok (int_of_long (Z.of_nat (arr_size (build_dlr2d_if lit_10 lit_1e_5))),
          ifops, ifops_ref)
    ∧ ifops = imfreq_ops_2d_build build_dlr2d_if build_dlr_rf build_cf2if
                                  getrf lit_10 lit_1e_5
    ∧ lambda ifops_ref = lambda ifops
    ∧ get_rfnodes ifops_ref = get_rfnodes ifops
    ∧ get_ifnodes ifops_ref = get_ifnodes ifops
    ∧ get_cf2if ifops_ref = get_cf2if ifops
    ∧ get_if2cf_lu ifops_ref = get_if2cf_lu ifops
    ∧ get_if2cf_piv ifops_ref = get_if2cf_piv ifops
    ∧ rank ifops_ref
      = Some (int_of_long (Z.of_nat (extent (get_cf2if ifops) 1)))
    ∧ eps ifops = Some lit_1e_5
    ∧ eps ifops_ref = None.
Proof.
  set (ifops := imfreq_ops_2d_build build_dlr2d_if build_dlr_rf build_cf2if
                                    getrf lit_10 lit_1e_5).
  assert (Hlam : lambda_ ifops = Some lit_10).
  { unfold ifops, imfreq_ops_2d_build. by destruct (getrf _ _). }
  assert (Heps : eps_ ifops = Some lit_1e_5) by apply build_eps.
  destruct (h5_read_after_write (∅ : gmap string (h5_group D F)) "ifops"
              ifops imfreq_ops_2d_default lit_10 lit_1e_5 [] Hlam Heps)
    as (fg & Hw & Hr).
  assert (Hrank : rank ifops
                  = Some (int_of_long
                            (Z.of_nat (arr_size (build_dlr2d_if lit_10 lit_1e_5)))))
    by apply build_rank.
  exists ifops. eexists. split.
  - change (main _ _ _ _ _ _)
      with (printed ← read_member (rank ifops);
            file ← h5_write ∅ "ifops" ifops;
            ifops_ref ← (h5_read file "ifops" imfreq_ops_2d_default []).1;
            Ok (printed, ifops, ifops_ref)).
    rewrite Hrank. cbn. rewrite Hw. cbn. rewrite Hr. reflexivity.
  - unfold lambda. rewrite Hlam. repeat split. exact Heps.
Qed.
End DriverFacts.

(** ** The properties above on the example *)

(** Reading the stored example record gives the example operator. *)

Lemma ex_file_read :
  h5_read ExampleFile.ex_file "ifops" imfreq_ops_2d_default []
  = (Ok Example.ex_op,
     ["lambda"; "eps"; "rf"; "if"; "cf2if"; "if2cf_lu"; "if2cf_piv"]).
Proof. vm_compute. reflexivity. Qed.

(** X1 at the operator left by the computing constructor in the example. *)
Lemma h5_write_then_read_witness :
  ∃ fg' op',
    h5_write ∅ "ifops" Example.ex_built = Ok fg'
    ∧ h5_read fg' "ifops" imfreq_ops_2d_default []
      = (Ok op', ["lambda"; "eps"; "rf"; "if"; "cf2if"; "if2cf_lu"; "if2cf_piv"])
    ∧ get_cf2if op' = get_cf2if Example.ex_built
    ∧ eps op' = None.
Proof.
  destruct (h5_write_then_read (∅ : gmap string (h5_group Qc Qc)) "ifops"
              Example.ex_built imfreq_ops_2d_default
              Example.ex_lambda Example.ex_eps [] eq_refl eq_refl)
    as (fg' & op' & Hw & Hr & _ & _ & _ & Hcf & _ & _ & _ & He).
  exists fg', op'. repeat split; assumption.
Defined.


(** X3 at the stored example record. *)
Lemma h5_read_result_witness :
  eps Example.ex_op = None ∧ rank Example.ex_op = Some 2%Z.
Proof.
  destruct (h5_read_result ExampleFile.ex_file "ifops" imfreq_ops_2d_default
              Example.ex_op [] _ ex_file_read)
    as (_ & He & Hr & _).
  split; [exact He | exact Hr].
Defined.

(** X5 at the example operator, read into a default-constructed one:
    both tolerances are uninitialised. *)
Lemma serialize_then_deserialize_witness :
  ∃ items op',
    serialize Example.ex_op [] = Ok items
    ∧ deserialize imfreq_ops_2d_default items = Ok (op', [])
    ∧ op' = Example.ex_op.
Proof.
  destruct (serialize_then_deserialize Example.ex_op imfreq_ops_2d_default
              Example.ex_lambda 2%Z [] [] eq_refl eq_refl)
    as (items & op' & Hs & _ & Hd & _ & _ & _ & _ & _ & _ & _ & _ & Heq).
  exists items, op'. rewrite app_nil_r in Hd. cbn in Hs.
  split; [exact Hs|]. split; [exact Hd|]. apply Heq. reflexivity.
Defined.

(** X6 at the example operator. *)
Lemma deserialize_keeps_transforms_witness :
  ∃ items op',
    serialize Example.ex_op [] = Ok items
    ∧ deserialize imfreq_ops_2d_default items = Ok (op', [])
    ∧ (∀ l σ, vals2coefs_st op' l σ = vals2coefs_st Example.ex_op l σ).
Proof.
  destruct (deserialize_keeps_transforms Example.ex_op imfreq_ops_2d_default
              Example.ex_lambda 2%Z [] eq_refl eq_refl)
    as (items & op' & Hs & Hd & Hst & _).
  exists items, op'. rewrite app_nil_r in Hd. repeat split; assumption.
Defined.

(** X8 at the example operator and values. *)
Lemma vals2coefs_st_returns_witness :
  ∃ x, vals2coefs_st Example.ex_op 0 [Example.ex_g] = (Ok x, [Example.ex_g; x])
       ∧ a_shape x = [2; 3] ∧ wf_array x.
Proof.
  destruct (vals2coefs_st Example.ex_op 0 [Example.ex_g]) as [[x| |] σ'] eqn:Hrun;
    try (exfalso; vm_compute in Hrun; discriminate).
  destruct (vals2coefs_st_returns Example.ex_op 0 [Example.ex_g] σ' x Hrun)
    as (g & Hg & _ & _ & _ & Hs & Hw & ->).
  injection Hg as <-. exists x. repeat split; assumption.
Defined.

(** X9 at the example operator and values. *)
Lemma coefs2vals_returns_witness :
  ∃ g, coefs2vals Example.ex_op Example.ex_g = Ok g
       ∧ a_shape g = [2; 3] ∧ wf_array g.
Proof.
  destruct (coefs2vals Example.ex_op Example.ex_g) as [g| |] eqn:Hrun;
    try (exfalso; vm_compute in Hrun; discriminate).
  destruct (coefs2vals_returns Example.ex_op Example.ex_g g Hrun)
    as (_ & _ & _ & Hs & Hw).
  exists g. repeat split; assumption.
Defined.

(** X10 at the operator rebuilt from empty fields and an empty matrix. *)
Lemma transforms_divide_by_rank_witness :
  vals2coefs_st ExampleFile.ex_empty_op 0 [empty_matrix]
  = (Undef, [empty_matrix; empty_matrix])
  ∧ coefs2vals ExampleFile.ex_empty_op (@empty_matrix Qc) = Undef.
Proof.
  destruct (transforms_divide_by_rank (S := Qc) ExampleFile.ex_empty_op
              empty_matrix empty_matrix [empty_matrix] 0 0%Z 0%Z
              eq_refl eq_refl eq_refl eq_refl) as (Hv & Hc & _).
  split; [exact Hv | exact Hc].
Defined.

(** X11 at the example operator and three coefficients. *)
Lemma coefs2eval_rejects_wrong_leading_extent_witness :
  coefs2eval Example.ex_op
    (mk_array [3] [Example.q 1; Example.q 2; Example.q 3]) 0%Z 0%Z
  = Throw (runtime_error "First dim of g != DLR rank r.").
Proof.
  apply (coefs2eval_rejects_wrong_leading_extent Example.ex_op 2%Z).
  - reflexivity.
  - vm_compute. discriminate.
Defined.

(** X12 at the example operator and a batch of three columns. *)
Lemma coefs2eval_batched_is_placeholder_witness :
  coefs2eval Example.ex_op Example.ex_g 1%Z (-1)%Z = Undef.
Proof.
  apply (coefs2eval_batched_is_placeholder Example.ex_op 2 Example.ex_g).
  - reflexivity.
  - lia.
  - exact ex_g_batched.
  - vm_compute. lia.
Defined.

(** X13 at the example operator and values, in rational arithmetic. *)
Lemma roundtrip_exact_witness :
  (x ← vals2coefs Example.ex_op Example.ex_g; coefs2vals Example.ex_op x)
  = Ok Example.ex_g.
Proof.
  exact (roundtrip_exact Example.ex_op 2 Example.ex_g Qcft
           ex_populated ex_factorised ex_g_batched).
Defined.

(** X14 at the example operator and values, in rational arithmetic. *)
Lemma roundtrip_exact_coefs_witness :
  (v ← coefs2vals Example.ex_op Example.ex_g; vals2coefs Example.ex_op v)
  = Ok Example.ex_g.
Proof.
  exact (roundtrip_exact_coefs Example.ex_op 2 Example.ex_g Qcft
           ex_populated ex_factorised ex_g_batched).
Defined.

(** X15 at the example collaborators: one node, rank two. *)
Lemma build_rank_counts_both_indices_witness :
  rank Example.ex_built = Some 2%Z
  ∧ a_shape (get_ifnodes Example.ex_built) = [1; 2].
Proof.
  split; [|reflexivity].
  apply (build_rank_counts_both_indices
           Example.ex_build_dlr2d_if Example.ex_build_dlr_rf
           Example.ex_build_cf2if Example.ex_getrf
           Example.ex_lambda Example.ex_eps 1).
  - reflexivity.
  - reflexivity.
Defined.

(** X16 at the example operator, inside and outside the extent. *)
Lemma indexed_accessors_read_rows_witness :
  get_ifnodes_at Example.ex_op 1 = Ok (0%Z, 1%Z)
  ∧ get_ifnodes_at Example.ex_op 2 = Undef
  ∧ get_rfnodes_at Example.ex_op 1 = Ok (Example.q 1).
Proof.
  destruct (indexed_accessors_read_rows Example.ex_op 2 2 1%Z 0%Qc
              eq_refl eq_refl eq_refl eq_refl) as [Hif Hrf].
  destruct (indexed_accessors_read_rows Example.ex_op 2 2 2%Z 0%Qc
              eq_refl eq_refl eq_refl eq_refl) as [Hif2 _].
  split; [exact Hif|]. split; [exact Hif2 | exact Hrf].
Defined.
